(** * Serial-manipulator kinematic control and its QP solver

    A shallow embedding of [Math/src/QPSolver.cpp] and
    [Control/src/SerialKinematicControl.cpp].

    The C++ code computes on [float], and on [double] in the few expressions
    that contain a floating literal such as [1.0] or [1E-5].  Every function
    below is written once, over an interface [Scalar] of the arithmetic the
    code uses, and is then read at two instances:
    - [Binary32.f32], IEEE-754 single precision (round to nearest even), the
      arithmetic the program runs on; it is executable and is used to run the
      code on concrete inputs;
    - [Exact.RScalar], the real numbers, the arithmetic in which the
      mathematical statements of the specification are meant.

    Eigen reports a size mismatch between operands through an assertion; the
    embedding makes that outcome explicit as [Fault]. *)

From Stdlib Require Import String ZArith List Bool Lia.
From Stdlib Require Import Reals Lra.
From Stdlib Require Import Floats.SpecFloat.
Import ListNotations.

Set Implicit Arguments.

(** ** Scalars *)

(** The operations on [float] that the sources use.  [s_lit n d] is the value
    of the decimal literal [n/d] in the scalar type ([0.9] is [s_lit 9 10]). *)
Class Scalar (F : Type) : Type := {
  s_lit  : Z -> positive -> F;
  s_add  : F -> F -> F;
  s_sub  : F -> F -> F;
  s_mul  : F -> F -> F;
  s_div  : F -> F -> F;
  s_opp  : F -> F;
  s_abs  : F -> F;
  s_sqrt : F -> F;
  s_ltb  : F -> F -> bool;
  s_leb  : F -> F -> bool;
  (** [double]: the type in which C++ evaluates an operation between a
      [float] and a floating literal.  [widen] is the promotion of a [float]
      operand, [narrow] the conversion of the result when it is stored in a
      [float]. *)
  wide   : Type;
  w_lit  : Z -> positive -> wide;
  widen  : F -> wide;
  narrow : wide -> F;
  w_add  : wide -> wide -> wide;
  w_sub  : wide -> wide -> wide;
  w_mul  : wide -> wide -> wide;
  w_ltb  : wide -> wide -> bool
}.

Declare Scope scalar_scope.
Delimit Scope scalar_scope with S.
Infix "+" := s_add : scalar_scope.
Infix "-" := s_sub : scalar_scope.
Infix "*" := s_mul : scalar_scope.
Infix "/" := s_div : scalar_scope.
Notation "- x" := (s_opp x) : scalar_scope.
Infix "<?" := s_ltb : scalar_scope.
Infix "<=?" := s_leb : scalar_scope.

Section Literals.
Context {F : Type} `{Scalar F}.

Definition s_zero : F := s_lit 0 1.
Definition s_one  : F := s_lit 1 1.
Definition s_two  : F := s_lit 2 1.
Definition s_four : F := s_lit 4 1.
Definition s_half : F := s_lit 1 2.
(** [0.9], the damping factor of the fallback command. *)
Definition s_0_9  : F := s_lit 9 10.
(** The literals [1.0], [0.9] and [1E-5] where they stand next to a
    [float]: they are [double]. *)
Definition w_one  : wide := w_lit 1 1.
Definition w_0_9  : wide := w_lit 9 10.
Definition w_1em5 : wide := w_lit 1 100000.
(** [1E-02], the floor given to a violated constraint slack. *)
Definition s_1em2 : F := s_lit 1 100.

(** [std::max(a,b)] is [(a < b) ? b : a]; [std::min(a,b)] is [(b < a) ? b : a]. *)
Definition s_max (a b : F) : F := if (a <? b)%S then b else a.
Definition s_min (a b : F) : F := if (b <? a)%S then b else a.
End Literals.

(** ** Outcomes of a computation *)

Inductive outcome (A : Type) : Type :=
| Ok (a : A)
| Fault
| OutOfFuel.
Arguments Ok {A} a.
Arguments Fault {A}.
Arguments OutOfFuel {A}.

Definition obind {A B : Type} (m : outcome A) (k : A -> outcome B) : outcome B :=
  match m with
  | Ok a => k a
  | Fault => Fault
  | OutOfFuel => OutOfFuel
  end.

Notation "x <- m ;; k" := (obind m (fun x => k))
  (at level 61, m at next level, right associativity).
Notation "' pat <- m ;; k" := (obind m (fun x => match x with pat => k end))
  (at level 61, pat pattern, m at next level, right associativity).

Definition of_option {A : Type} (o : option A) : outcome A :=
  match o with Some a => Ok a | None => Fault end.


(** ** Dense vectors and matrices *)

Section Dense.
Context {F : Type} `{Scalar F}.

(** [Eigen::VectorXf]: its coefficients in order; [size()] is [length]. *)
Definition Vec : Type := list F.

(** [Eigen::MatrixXf]: its dimensions and its coefficient function. *)
Record Mat : Type := mkMat {
  rows  : nat;
  cols  : nat;
  coeff : nat -> nat -> F
}.

Definition vzero (n : nat) : Vec := repeat s_zero n.

(** [v(i)]; Eigen asserts [i < size()]. *)
Definition vget (v : Vec) (i : nat) : outcome F := of_option (nth_error v i).

Fixpoint vset (v : Vec) (i : nat) (a : F) : outcome Vec :=
  match v, i with
  | [], _ => Fault
  | _ :: v', O => Ok (a :: v')
  | b :: v', S i' => v'' <- vset v' i' a ;; Ok (b :: v'')
  end.

Definition vscale (a : F) (v : Vec) : Vec := map (fun b => (a * b)%S) v.
Definition vneg (v : Vec) : Vec := map s_opp v.

Fixpoint zipw (op : F -> F -> F) (u v : Vec) : Vec :=
  match u, v with
  | a :: u', b :: v' => op a b :: zipw op u' v'
  | _, _ => []
  end.

(** Coefficient-wise sum and difference; Eigen asserts equal sizes. *)
Definition vadd (u v : Vec) : outcome Vec :=
  if Nat.eqb (length u) (length v) then Ok (zipw s_add u v) else Fault.
Definition vsub (u v : Vec) : outcome Vec :=
  if Nat.eqb (length u) (length v) then Ok (zipw s_sub u v) else Fault.

Fixpoint dot_from (acc : F) (u v : Vec) : F :=
  match u, v with
  | a :: u', b :: v' => dot_from (acc + a * b)%S u' v'
  | _, _ => acc
  end.

(** [u.dot(v)]; Eigen asserts equal sizes. *)
Definition vdot (u v : Vec) : outcome F :=
  if Nat.eqb (length u) (length v) then Ok (dot_from s_zero u v) else Fault.

(** [v.norm()]. *)
Definition vnorm (v : Vec) : F := s_sqrt (dot_from s_zero v v).

(** [v.tail(n)]; Eigen asserts [n <= size()]. *)
Definition vtail (n : nat) (v : Vec) : outcome Vec :=
  if Nat.leb n (length v) then Ok (skipn (length v - n) v) else Fault.

Definition mzero (r c : nat) : Mat := mkMat r c (fun _ _ => s_zero).
Definition mident (r c : nat) : Mat :=
  mkMat r c (fun i j => if Nat.eqb i j then s_one else s_zero).
Definition mtranspose (M : Mat) : Mat :=
  mkMat (cols M) (rows M) (fun i j => coeff M j i).
Definition mscale (a : F) (M : Mat) : Mat :=
  mkMat (rows M) (cols M) (fun i j => (a * coeff M i j)%S).
Definition mneg (M : Mat) : Mat :=
  mkMat (rows M) (cols M) (fun i j => (- coeff M i j)%S).

(** [M.row(j).transpose()] as a vector. *)
Definition mrow (M : Mat) (j : nat) : Vec := map (coeff M j) (seq 0 (cols M)).
Definition mcol (M : Mat) (j : nat) : Vec := map (fun i => coeff M i j) (seq 0 (rows M)).

(** [b*b.transpose()]. *)
Definition vouter (b : Vec) : Mat :=
  mkMat (length b) (length b) (fun i j => (nth i b s_zero * nth j b s_zero)%S).

Definition same_dims (A B : Mat) : bool :=
  Nat.eqb (rows A) (rows B) && Nat.eqb (cols A) (cols B).

Definition madd (A B : Mat) : outcome Mat :=
  if same_dims A B
  then Ok (mkMat (rows A) (cols A) (fun i j => (coeff A i j + coeff B i j)%S))
  else Fault.

(** [A*B]; Eigen asserts [A.cols() == B.rows()]. *)
Definition mmul (A B : Mat) : outcome Mat :=
  if Nat.eqb (cols A) (rows B)
  then Ok (mkMat (rows A) (cols B)
             (fun i j => dot_from s_zero (mrow A i) (mcol B j)))
  else Fault.

(** [M*v]; Eigen asserts [M.cols() == v.size()]. *)
Definition mvmul (M : Mat) (v : Vec) : outcome Vec :=
  if Nat.eqb (cols M) (length v)
  then Ok (map (fun i => dot_from s_zero (mrow M i) v) (seq 0 (rows M)))
  else Fault.

(** [M.block(i0,j0,r,c) = S]; Eigen asserts that the block lies inside [M]
    and that [S] is [r] by [c]. *)
Definition set_block (M : Mat) (i0 j0 r c : nat) (S : Mat) : outcome Mat :=
  if Nat.leb (i0 + r) (rows M) && Nat.leb (j0 + c) (cols M)
     && Nat.eqb (rows S) r && Nat.eqb (cols S) c
  then Ok (mkMat (rows M) (cols M)
             (fun i j =>
                if Nat.leb i0 i && Nat.ltb i (i0 + r)
                   && Nat.leb j0 j && Nat.ltb j (j0 + c)
                then coeff S (i - i0) (j - j0)
                else coeff M i j))
  else Fault.

(** [M.block(i0,j0,r,c)] read; Eigen asserts that the block lies inside [M]. *)
Definition get_block (M : Mat) (i0 j0 r c : nat) : outcome Mat :=
  if Nat.leb (i0 + r) (rows M) && Nat.leb (j0 + c) (cols M)
  then Ok (mkMat r c (fun i j => coeff M (i0 + i) (j0 + j)))
  else Fault.

(** The right-hand side of [v.head(n) = w] or [v.tail(n) = w]; Eigen asserts
    that [w] has [n] coefficients. *)
Definition segment_of (n : nat) (w : Vec) : outcome Vec :=
  if Nat.eqb (length w) n then Ok w else Fault.

(** [M(i,i) += a]. *)
Definition add_diag (M : Mat) (i : nat) (a : F) : outcome Mat :=
  if Nat.ltb i (rows M) && Nat.ltb i (cols M)
  then Ok (mkMat (rows M) (cols M)
             (fun r c => if Nat.eqb r i && Nat.eqb c i
                         then (coeff M r c + a)%S else coeff M r c))
  else Fault.

(** [M.trace()], the sum of the main diagonal. *)
Definition mtrace (M : Mat) : F :=
  fold_left (fun acc i => (acc + coeff M i i)%S)
            (seq 0 (Nat.min (rows M) (cols M))) s_zero.
End Dense.

Arguments Vec F : clear implicits.
Arguments Mat F : clear implicits.

(** ** Methods: object state, diagnostics, faults *)

Inductive stream : Type := StdErr | StdOut.

(** A line written to [std::cerr] or [std::cout]; [d_text] is the constant
    part of the message. *)
Record diagnostic : Type := Diag { d_stream : stream; d_text : string }.

(** A method of an object of type [S]: from the object's state to a result,
    the state afterwards and the diagnostics written, or to a fault. *)
Definition M (S A : Type) : Type := S -> outcome (A * S * list diagnostic).

Definition mret {S A : Type} (a : A) : M S A := fun s => Ok (a, s, []).

Definition mbind {S A B : Type} (m : M S A) (k : A -> M S B) : M S B :=
  fun s =>
    match m s with
    | Ok (a, s', l) =>
        match k a s' with
        | Ok (b, s'', l') => Ok (b, s'', l ++ l')
        | Fault => Fault
        | OutOfFuel => OutOfFuel
        end
    | Fault => Fault
    | OutOfFuel => OutOfFuel
    end.

Notation "x <~ m ;; k" := (mbind m (fun x => k))
  (at level 61, m at next level, right associativity).

(** [this]: read the object. *)
Definition this {S : Type} : M S S := fun s => Ok (s, s, []).
Definition emit {S : Type} (d : diagnostic) : M S unit := fun s => Ok (tt, s, [d]).
Definition lift {S A : Type} (o : outcome A) : M S A :=
  fun s => match o with
           | Ok a => Ok (a, s, [])
           | Fault => Fault
           | OutOfFuel => OutOfFuel
           end.

(** [for (j = ...; ...; ...) body] over the indices [l], threading the
    variables [b] that the body updates. *)
Fixpoint ofold {A B : Type} (body : B -> A -> outcome B) (l : list A) (b : B)
  : outcome B :=
  match l with
  | [] => Ok b
  | a :: l' => b' <- body b a ;; ofold body l' b'
  end.

Fixpoint mfold {S A B : Type} (body : B -> A -> M S B) (l : list A) (b : B)
  : M S B :=
  match l with
  | [] => mret b
  | a :: l' => b' <~ body b a ;; mfold body l' b'
  end.

(** ** The QP solver ([QPSolver.cpp]) *)

(** Members of [QPSolver] read by the interior-point method.  They are
    declared in [QPSolver.h]; their values are not fixed here. *)
Record QPSolver (F : Type) : Type := mkQPSolver {
  alpha0   : F;
  alphaMod : F;
  beta0    : F;
  betaMod  : F;
  tol      : F;
  u0       : F;
  uMod     : F;
  steps    : Z
}.

(** Functions that the sources call and do not define: Eigen's
    [partialPivLu().solve] and [determinant], and [solve_linear_system] of
    the solver's header. *)
Class External (F : Type) `{Scalar F} : Type := {
  partialPivLu_solve  : Mat F -> Vec F -> outcome (Vec F);
  determinant         : Mat F -> F;
  solve_linear_system : Vec F -> Mat F -> Vec F -> M (QPSolver F) (Vec F)
}.
Arguments External F {_}.

Section Solver.
Context {F : Type} `{External F}.

Definition solve_dimension_error : diagnostic :=
  Diag StdErr "[ERROR] [QPSOLVER] solve(): Dimensions of input arguments do not match.".

(** [QPSolver::solve(H,f,x0)], lines 10-27. *)
Definition solve (H : Mat F) (f x0 : Vec F) : M (QPSolver F) (Vec F) :=
  let n := length x0 in
  if negb (Nat.eqb (rows H) n) || negb (Nat.eqb (cols H) n)
     || negb (Nat.eqb (length f) n)
  then _ <~ emit solve_dimension_error ;; mret x0
  else solve_linear_system f H x0.

(** The variables of the interior-point loop that live across iterations. *)
Record ipm_state : Type := mkIpm {
  ip_x      : Vec F;
  ip_x_prev : Vec F;
  ip_beta   : F;
  ip_u      : F
}.

(** The variables updated by the loop over the constraints, lines 102-115. *)
Record pass_state : Type := mkPass {
  ps_violation : bool;
  ps_u : F;
  ps_d : list F;
  ps_g : Vec F;
  ps_I : Mat F
}.

(** Body of the loop of lines 102-115 for constraint [j]. *)
Definition slack_step (cfg : QPSolver F) (bt : list (Vec F)) (btb : list (Mat F))
           (c x : Vec F) (s : pass_state) (j : nat) : outcome pass_state :=
  btj  <- of_option (nth_error bt j) ;;
  btbj <- of_option (nth_error btb j) ;;
  p    <- vdot btj x ;;
  cj   <- vget c j ;;
  let dj := (p - cj)%S in
  let '(violation, dj, u) :=
    if (dj <? s_zero)%S
    then (true, s_1em2, (ps_u s * uMod cfg)%S)
    else (ps_violation s, dj, ps_u s) in
  d' <- vset (ps_d s) j dj ;;
  g' <- vadd (ps_g s) (vscale (- (u / dj))%S btj) ;;
  I' <- madd (ps_I s) (mscale (u / (dj * dj))%S btbj) ;;
  Ok (mkPass violation u d' g' I').

(** [while (d[j] + alpha*bt[j].dot(dx) < 0) alpha *= alphaMod], line 131;
    [s] is [bt[j].dot(dx)], and [fuel] bounds the number of tests. *)
Fixpoint shrink (fuel : nat) (cfg : QPSolver F) (dj s alpha : F) : outcome F :=
  match fuel with
  | O => OutOfFuel
  | S fuel' =>
      if (dj + alpha * s <? s_zero)%S
      then shrink fuel' cfg dj s (alpha * alphaMod cfg)%S
      else Ok alpha
  end.

(** Body of the loop of lines 129-132 for constraint [j]. *)
Definition search_step (fuel : nat) (cfg : QPSolver F) (bt : list (Vec F))
           (d : list F) (dx : Vec F) (alpha : F) (j : nat) : outcome F :=
  btj <- of_option (nth_error bt j) ;;
  dj  <- of_option (nth_error d j) ;;
  s   <- vdot btj dx ;;
  shrink fuel cfg dj s alpha.

(** How an iteration of the loop of line 94 ends: by [break], or with the
    values for the next round. *)
Inductive iteration_end : Type :=
| Break (x : Vec F)
| Continue (st : ipm_state).

(** [beta += this->betaMod*(1.0 - beta)], line 120.  The literal [1.0] is a
    [double], so the difference, the product and the sum are computed in
    [double] and the sum is rounded once, when it is stored in [beta]. *)
Definition slowed (cfg : QPSolver F) (beta : F) : F :=
  narrow (w_add (widen beta)
                (w_mul (widen (betaMod cfg)) (w_sub w_one (widen beta)))).

(** Lines 96-132 of an iteration: the pass over the constraints, the
    return to the previous solution after a violation, the Newton step
    [dx] and its step size [alpha].  The result is [x] and [beta] as they
    stand at line 134, the variables of the pass, [dx] and [alpha]. *)
Definition newton_step (fuel : nat) (cfg : QPSolver F) (H : Mat F) (f : Vec F)
           (bt : list (Vec F)) (btb : list (Mat F)) (c : Vec F)
           (numConstraints n : nat) (d : list F) (st : ipm_state)
  : outcome (Vec F * F * pass_state * Vec F * F) :=
  p <- ofold (slack_step cfg bt btb c (ip_x st))
             (seq 0 numConstraints)
             (mkPass false (ip_u st) d (vzero n) H) ;;
  let '(x, beta) :=
    if ps_violation p
    then (ip_x_prev st, slowed cfg (ip_beta st))
    else (ip_x st, ip_beta st) in
  Hx <- mvmul H x ;;
  r  <- vsub Hx f ;;
  g  <- vadd (ps_g p) r ;;
  dx <- partialPivLu_solve (ps_I p) (vneg g) ;;
  alpha <- ofold (search_step fuel cfg bt (ps_d p) dx)
                 (seq 0 numConstraints) (alpha0 cfg) ;;
  Ok (x, beta, p, dx, alpha).

(** One iteration of the interior-point loop, lines 96-139. *)
Definition iteration (fuel : nat) (cfg : QPSolver F) (H : Mat F) (f : Vec F)
           (bt : list (Vec F)) (btb : list (Mat F)) (c : Vec F)
           (numConstraints n : nat) (d : list F) (st : ipm_state)
  : outcome (iteration_end * list F) :=
  '(x, beta, p, dx, alpha) <-
    newton_step fuel cfg H f bt btb c numConstraints n d st ;;
  if (alpha * vnorm dx <? tol cfg)%S
  then Ok (Break x, ps_d p)
  else
    x' <- vadd x (vscale alpha dx) ;;
    Ok (Continue (mkIpm x' x beta (ps_u p * beta)%S), ps_d p).

(** [for (int i = 0; i < steps; i++)], lines 94-140, and [return x]. *)
Fixpoint interior_point_loop (count fuel : nat) (cfg : QPSolver F) (H : Mat F)
         (f : Vec F) (bt : list (Vec F)) (btb : list (Mat F)) (c : Vec F)
         (numConstraints n : nat) (d : list F) (st : ipm_state)
  : outcome (Vec F) :=
  match count with
  | O => Ok (ip_x st)
  | S count' =>
      r <- iteration fuel cfg H f bt btb c numConstraints n d st ;;
      match r with
      | (Break x, _) => Ok x
      | (Continue st', d') =>
          interior_point_loop count' fuel cfg H f bt btb c numConstraints n d' st'
      end
  end.

(** The else-branch of the constrained [solve], lines 67-142. *)
Definition interior_point (fuel : nat) (cfg : QPSolver F) (H : Mat F)
           (f : Vec F) (B : Mat F) (c x0 : Vec F) : outcome (Vec F) :=
  let n := length x0 in
  let numConstraints := rows B in
  let d := repeat s_zero numConstraints in
  let bt := map (mrow B) (seq 0 (rows B)) in
  let btb := map vouter bt in
  interior_point_loop (Z.to_nat (steps cfg)) fuel cfg H f bt btb c
                      numConstraints n d
                      (mkIpm x0 x0 (beta0 cfg) (u0 cfg)).

Definition solve_constrained_dimension_error : diagnostic :=
  Diag StdOut "[ERROR] [QPSOLVER] solve(): Dimensions of input arguments do not match.".

(** [QPSolver::solve(H,f,B,c,x0)], lines 33-144. *)
Definition solve_constrained (fuel : nat) (H : Mat F) (f : Vec F) (B : Mat F)
           (c x0 : Vec F) : M (QPSolver F) (Vec F) :=
  let n := length x0 in
  if negb (Nat.eqb (rows H) n) || negb (Nat.eqb (cols H) n)
     || negb (Nat.eqb (length f) n) || negb (Nat.eqb (rows B) (length c))
  then _ <~ emit solve_constrained_dimension_error ;; mret x0
  else cfg <~ this ;; lift (interior_point fuel cfg H f B c x0).

Definition least_squares_dimension_error : diagnostic :=
  Diag StdErr "[ERROR] [QPSOLVER] least_squares(): Dimensions of inputs arguments do not match!".
Definition least_squares_weight_error : diagnostic :=
  Diag StdErr "[ERROR] [QPSOLVER] least_squares(): Weighting matrix W has the wrong dimensions.".

(** [QPSolver::least_squares(y,A,W,xMin,xMax,x0)], lines 185-231:
    min 0.5*(y-A*x)'*W*(y-A*x) subject to xMin <= x <= xMax.
    A matrix or vector that the code declares without initial values starts
    here from zeros; the code assigns every coefficient before reading it. *)
Definition least_squares_box (fuel : nat) (y : Vec F) (A W : Mat F)
           (xMin xMax x0 : Vec F) : M (QPSolver F) (Vec F) :=
  let m := rows A in
  let n := cols A in
  if negb (Nat.eqb (length y) m) || negb (Nat.eqb (length x0) n)
     || negb (Nat.eqb (length xMin) n) || negb (Nat.eqb (length xMax) n)
     || negb (Nat.eqb (length x0) n)
  then _ <~ emit least_squares_dimension_error ;; mret x0
  else if negb (Nat.eqb (rows W) m) || negb (Nat.eqb (cols W) m)
  then _ <~ emit least_squares_weight_error ;; mret x0
  else
    B0  <~ lift (set_block (mzero (2 * n) n) 0 0 n n
                           (mscale (s_lit (-1) 1) (mident n n))) ;;
    B   <~ lift (set_block B0 n 0 n n (mident n n)) ;;
    let c := vscale (s_lit (-1) 1) xMax ++ xMin in
    AtW <~ lift (mmul (mtranspose A) W) ;;
    AtWA <~ lift (mmul AtW A) ;;
    AtWy <~ lift (mvmul AtW y) ;;
    solve_constrained fuel AtWA AtWy B c x0.

(** [QPSolver::least_squares(xd,W,y,A,xMin,xMax,x0)], lines 298-370:
    min 0.5*(xd-x)'*W*(xd-x) subject to A*x = y and xMin <= x <= xMax. *)
Definition least_squares_equality_box (fuel : nat) (xd : Vec F) (W : Mat F)
           (y : Vec F) (A : Mat F) (xMin xMax x0 : Vec F)
  : M (QPSolver F) (Vec F) :=
  let m := rows A in
  let n := cols A in
  if negb (Nat.eqb (length xd) n) || negb (Nat.eqb (length y) m)
     || negb (Nat.eqb (length x0) n)
  then _ <~ emit least_squares_dimension_error ;; mret x0
  else if negb (Nat.eqb (rows W) n) || negb (Nat.eqb (cols W) n)
  then _ <~ emit least_squares_weight_error ;; mret x0
  else
    H1 <~ lift (set_block (mzero (m + n) (m + n)) 0 0 m m (mzero m m)) ;;
    H2 <~ lift (set_block H1 0 m m n A) ;;
    H3 <~ lift (set_block H2 m 0 n m (mtranspose A)) ;;
    H4 <~ lift (set_block H3 m m n n W) ;;
    fh <~ lift (segment_of m y) ;;
    Wxd <~ lift (mvmul W xd) ;;
    ft <~ lift (segment_of n Wxd) ;;
    let f := fh ++ ft in
    B1 <~ lift (set_block (mzero (2 * n) (m + n)) 0 0 (2 * n) m (mzero (2 * n) m)) ;;
    B2 <~ lift (set_block B1 n m n n (mident n n)) ;;
    Bl <~ lift (get_block B2 n m n n) ;;
    B3 <~ lift (set_block B2 0 m n n (mneg Bl)) ;;
    ch <~ lift (segment_of n (vneg xMax)) ;;
    ct <~ lift (segment_of n xMin) ;;
    let c := ch ++ ct in
    st <~ lift (segment_of n x0) ;;
    let state := vzero m ++ st in
    state' <~ solve_constrained fuel H4 f B3 c state ;;
    lift (vtail n state').
End Solver.

(** ** The kinematic control law ([SerialKinematicControl.cpp]) *)

(** [Eigen::Vector3f] and [Eigen::Quaternionf]. *)
Record Vector3 (F : Type) : Type := mkV3 { v_x : F; v_y : F; v_z : F }.
Record Quaternion (F : Type) : Type := mkQuat { q_w : F; q_x : F; q_y : F; q_z : F }.

(** [Eigen::Isometry3f], through the two parts the code reads. *)
Record Isometry3 (F : Type) : Type := mkIso {
  translation : Vector3 F;
  rotation    : Mat F
}.

(** The members of the controller that the code reads directly.  [solver] is
    the [QPSolver] base sub-object. *)
Record Control (F : Type) : Type := mkControl {
  solver : QPSolver F;
  n    : nat;
  k    : F;
  kp   : F;
  q    : Vec F;
  pLim : list (F * F);
  vLim : list F;
  aLim : list F;
  dt   : F
}.

(** Members of the base classes and of Eigen that the controller calls and
    that the sources do not define. *)
Class KinematicBase (F : Type) `{Scalar F} : Type := {
  get_joint_velocities   : Control F -> Vec F;
  get_joint_velocity     : Control F -> nat -> F;
  get_joint_position     : Control F -> nat -> F;
  get_jacobian           : Control F -> Mat F;
  get_inertia            : Control F -> Mat F;
  get_endpoint_pose      : Control F -> Isometry3 F;
  get_pseudoinverse      : Control F -> Mat F -> Mat F;
  get_partial_derivative : Control F -> Mat F -> nat -> Mat F;
  move_joints            : Vec F -> M (Control F) (Vec F);
  (** [Eigen::Quaternionf(R)] for a rotation matrix [R]. *)
  quaternion_of_rotation : Mat F -> Quaternion F
}.
Arguments KinematicBase F {_}.

Section Quaternions.
Context {F : Type} `{Scalar F}.
Local Open Scope scalar_scope.

(** Eigen's [conjugate()], [operator*], [dot()] and [vec()]. *)
Definition conjugate (a : Quaternion F) : Quaternion F :=
  mkQuat (q_w a) (- q_x a) (- q_y a) (- q_z a).

Definition qmul (a b : Quaternion F) : Quaternion F :=
  mkQuat (q_w a * q_w b - q_x a * q_x b - q_y a * q_y b - q_z a * q_z b)
         (q_w a * q_x b + q_x a * q_w b + q_y a * q_z b - q_z a * q_y b)
         (q_w a * q_y b + q_y a * q_w b + q_z a * q_x b - q_x a * q_z b)
         (q_w a * q_z b + q_z a * q_w b + q_x a * q_y b - q_y a * q_x b).

Definition quat_dot (a b : Quaternion F) : F :=
  q_x a * q_x b + q_y a * q_y b + q_z a * q_z b + q_w a * q_w b.

Definition vec (a : Quaternion F) : Vector3 F := mkV3 (q_x a) (q_y a) (q_z a).

Definition v3sub (a b : Vector3 F) : Vector3 F :=
  mkV3 (v_x a - v_x b) (v_y a - v_y b) (v_z a - v_z b).
Definition v3neg (a : Vector3 F) : Vector3 F :=
  mkV3 (- v_x a) (- v_y a) (- v_z a).
Definition v3list (a : Vector3 F) : Vec F := [v_x a; v_y a; v_z a].
End Quaternions.

Section Controller.
Context {F : Type} `{External F} {KB : KinematicBase F}.
Local Open Scope scalar_scope.

(** A call of a [QPSolver] method on the base sub-object. *)
Definition with_solver {A : Type} (m : M (QPSolver F) A) : M (Control F) A :=
  fun s =>
    match m (solver s) with
    | Ok (a, cfg, l) =>
        Ok (a, mkControl cfg (n s) (k s) (kp s) (q s) (pLim s) (vLim s)
                         (aLim s) (dt s), l)
    | Fault => Fault
    | OutOfFuel => OutOfFuel
    end.

Definition put (s : Control F) : M (Control F) unit := fun _ => Ok (tt, s, []).

Definition cerr (text : string) : M (Control F) unit := emit (Diag StdErr text).

(** [SerialKinematicControl::set_proportional_gain], lines 35-58;
    [gain == 0] is read as [gain <= 0 && 0 <= gain]. *)
Definition set_proportional_gain (gain : F) : M (Control F) bool :=
  if (gain <=? s_zero) && (s_zero <=? gain)
  then _ <~ cerr "[ERROR] [SERIALKINEMATICCONTROL] set_proportional_gain(): Value cannot be zero. Gain not set." ;;
       mret false
  else if gain <? s_zero
  then _ <~ cerr "[WARNING] [SERIALKINEMATICCONTROL] set_proportional_gain(): Gain cannot be negative. It has been automatically made positive..." ;;
       s <~ this ;;
       _ <~ put (mkControl (solver s) (n s) (s_lit (-1) 1 * gain) (kp s) (q s)
                           (pLim s) (vLim s) (aLim s) (dt s)) ;;
       mret true
  else s <~ this ;;
       _ <~ put (mkControl (solver s) (n s) gain (kp s) (q s)
                           (pLim s) (vLim s) (aLim s) (dt s)) ;;
       mret true.

(** [SerialKinematicControl::get_pose_error], lines 63-81. *)
Definition get_pose_error (desired actual : Isometry3 F) : Vec F :=
  let head := v3sub (translation desired) (translation actual) in
  let qd := quaternion_of_rotation (rotation desired) in
  let qa := quaternion_of_rotation (rotation actual) in
  let qe := qmul qd (conjugate qa) in
  let tail := if quat_dot qd qa <=? s_zero then vec qe else v3neg (vec qe) in
  v3list head ++ v3list tail.

(** [SerialKinematicControl::get_speed_limit], lines 378-399.  The two
    output parameters [lower] and [upper] are returned as a pair, in the
    order of the parameter list; the [bool] result is always [true]. *)
Definition get_speed_limit (i : nat) : M (Control F) (F * F) :=
  s <~ this ;;
  lim <~ lift (of_option (nth_error (pLim s) i)) ;;
  qi  <~ lift (vget (q s) i) ;;
  vl  <~ lift (of_option (nth_error (vLim s) i)) ;;
  al  <~ lift (of_option (nth_error (aLim s) i)) ;;
  let p := (fst lim - qi) / dt s in
  let v := - vl in
  let a := s_lit (-2) 1 * s_sqrt (al * (qi - fst lim)) in
  let lower := s_max p (s_max v a) in
  let p := (snd lim - qi) / dt s in
  let v := vl in
  let a := s_two * s_sqrt (al * (snd lim - qi)) in
  let upper := s_min p (s_min v a) in
  mret (lower, upper).

(** [if (x < lower) x = lower; else if (x > upper) x = upper;] *)
Definition saturate (x lower upper : F) : F :=
  if x <? lower then lower else if upper <? x then upper else x.

(** [SerialKinematicControl::get_joint_penalty], lines 403-423. *)
Definition get_joint_penalty (i : nat) : M (Control F) F :=
  s <~ this ;;
  lim <~ lift (of_option (nth_error (pLim s) i)) ;;
  let q     := get_joint_position s i in
  let lower := q - fst lim in
  let upper := snd lim - q in
  let range := snd lim - fst lim in
  let dpdq  := (range * range * (s_two * q - snd lim - fst lim))
               / (s_four * upper * upper * lower * lower) in
  if s_zero <? dpdq * get_joint_velocity s i
  then mret (range * range / (s_four * upper * lower))
  else mret s_one.

(** [SerialKinematicControl::singularity_avoidance], lines 428-466. *)
Definition singularity_avoidance (scalar : F) : M (Control F) (Vec F) :=
  s <~ this ;;
  if scalar <=? s_zero
  then _ <~ cerr "[ERROR] [SERIALKINEMATICCONTROL] singularity_avoidance(): Input argument must be positive!" ;;
       mret (vzero (n s))
  else
    let J := get_jacobian s in
    let invJ := get_pseudoinverse s J in
    JJt <~ lift (mmul J (mtranspose J)) ;;
    let mu := s_sqrt (determinant JJt) in
    grad <~ lift (vset (vzero (n s)) 0 s_zero) ;;
    mfold (fun grad i =>
             let dJ := get_partial_derivative s J i in
             P <~ lift (mmul dJ invJ) ;;
             lift (vset grad i (scalar * mu * mtrace P)))
          (seq 1 (n s - 1)) grad.

(** The loop of line 122: [get_speed_limit(xMin(i),xMax(i),i)] for every joint. *)
Definition speed_limits : M (Control F) (Vec F * Vec F) :=
  s <~ this ;;
  mfold (fun (b : Vec F * Vec F) i =>
           lu <~ get_speed_limit i ;;
           xMin <~ lift (vset (fst b) i (fst lu)) ;;
           xMax <~ lift (vset (snd b) i (snd lu)) ;;
           mret (xMin, xMax))
        (seq 0 (n s)) (vzero (n s), vzero (n s)).

(** [SerialKinematicControl::move_at_speed(vel,redundant)], lines 95-199. *)
Definition move_at_speed_redundant (fuel : nat) (vel redundant : Vec F)
  : M (Control F) (Vec F) :=
  s <~ this ;;
  if negb (Nat.eqb (length redundant) (n s))
  then _ <~ cerr "[ERROR] [SERIALKINEMATICCONTROL] move_at_speed(): Expected a nx1 vector for the redundant task." ;;
       mret (vscale s_0_9 (get_joint_velocities s))
  else
    let J := get_jacobian s in
    limits <~ speed_limits ;;
    let xMin := fst limits in
    let xMax := snd limits in
    if Nat.leb (n s) 6
    then
      mid <~ lift (vadd xMin xMax) ;;
      with_solver (least_squares_box fuel vel J (mident (n s) (n s))
                                     xMin xMax (vscale s_half mid))
    else
      W <~ mfold (fun W i =>
                    pen <~ get_joint_penalty i ;;
                    lift (add_diag W i (pen - s_one)))
                 (seq 0 (n s)) (get_inertia s) ;;
      with_solver (least_squares_equality_box fuel redundant W vel J
                                              xMin xMax (get_joint_velocities s)).

(** [SerialKinematicControl::move_at_speed(vel)], lines 86-90. *)
Definition move_at_speed (fuel : nat) (vel : Vec F) : M (Control F) (Vec F) :=
  s <~ this ;;
  if Nat.leb (n s) 6
  then move_at_speed_redundant fuel vel (vzero (n s))
  else r <~ singularity_avoidance s_half ;;
       move_at_speed_redundant fuel vel r.

(** [SerialKinematicControl::solve_joint_control], lines 204-248.  The call
    of line 240 is [get_speed_limit(upper, lower, i)]: the first output
    parameter is bound to the local [upper], the second to [lower].  The
    test of line 235 against [1E-5] and the product [0.9*get_joint_velocity(i)]
    are in [double]. *)
Definition solve_joint_control (y : Vec F) (U : Mat F) : M (Control F) (Vec F) :=
  s <~ this ;;
  if negb (Nat.eqb (length y) (n s))
  then _ <~ cerr "[ERROR] [SERIALKINEMATICCONTROL] solve_joint_control(): Expected a nx1 vector for the input." ;;
       mret (vscale s_0_9 (get_joint_velocities s))
  else if negb (Nat.eqb (rows U) (n s)) || negb (Nat.eqb (cols U) (n s))
  then _ <~ cerr "[ERROR] [SERIALKINEMATICCONTROL] solve_joint_control(): Expected a nxn matrix for the input." ;;
       mret (vscale s_0_9 (get_joint_velocities s))
  else
    mfold (fun qdot i =>
             sum <~ lift (ofold (fun sum j =>
                                   qj <- vget qdot j ;;
                                   Ok (sum + coeff U i j * qj))
                                (seq (i + 1) (n s - (i + 1))) s_zero) ;;
             qi <~ (if w_ltb (widen (s_abs (coeff U i i))) w_1em5
                    then mret (narrow (w_mul w_0_9
                                             (widen (get_joint_velocity s i))))
                    else yi <~ lift (vget y i) ;;
                         mret ((yi - sum) / coeff U i i)) ;;
             out <~ get_speed_limit i ;;
             let upper := fst out in
             let lower := snd out in
             lift (vset qdot i (saturate qi lower upper)))
          (rev (seq 0 (n s))) (vzero (n s)).

(** [SerialKinematicControl::move_to_position], lines 253-280. *)
Definition move_to_position (pos : Vec F) : M (Control F) (Vec F) :=
  s <~ this ;;
  if negb (Nat.eqb (length pos) (n s))
  then _ <~ cerr "[ERROR] [SERIALKINEMATICCONTROL] move_to_position(): Expected a nx1 vector for the input." ;;
       mret (vscale s_0_9 (get_joint_velocities s))
  else
    mfold (fun ctrl i =>
             pi <~ lift (vget pos i) ;;
             qi <~ lift (vget (q s) i) ;;
             out <~ get_speed_limit i ;;
             let lower := fst out in
             let upper := snd out in
             lift (vset ctrl i (saturate (k s * (pi - qi)) lower upper)))
          (seq 0 (n s)) (vzero (n s)).

(** [SerialKinematicControl::move_to_pose(pose)], lines 285-288. *)
Definition move_to_pose (fuel : nat) (pose : Isometry3 F) : M (Control F) (Vec F) :=
  s <~ this ;;
  move_at_speed fuel (vscale (k s) (get_pose_error pose (get_endpoint_pose s))).

(** [SerialKinematicControl::move_to_pose(pose,redundancy)], lines 293-308. *)
Definition move_to_pose_redundant (fuel : nat) (pose : Isometry3 F)
           (redundancy : Vec F) : M (Control F) (Vec F) :=
  s <~ this ;;
  if negb (Nat.eqb (length redundancy) (n s))
  then _ <~ cerr "[ERROR] [SERIALKINEMATICCONTROL] move_to_pose(): Expected a nx1 vector for the redundant task." ;;
       mret (vscale s_0_9 (get_joint_velocities s))
  else move_at_speed_redundant fuel
         (vscale (k s) (get_pose_error pose (get_endpoint_pose s))) redundancy.

(** [SerialKinematicControl::track_cartesian_trajectory(pose,vel)], lines 313-317. *)
Definition track_cartesian_trajectory (fuel : nat) (pose : Isometry3 F)
           (vel : Vec F) : M (Control F) (Vec F) :=
  s <~ this ;;
  v <~ lift (vadd vel (vscale (k s) (get_pose_error pose (get_endpoint_pose s)))) ;;
  move_at_speed fuel v.

(** [SerialKinematicControl::track_cartesian_trajectory(pose,vel,redundant)],
    lines 322-338. *)
Definition track_cartesian_trajectory_redundant (fuel : nat) (pose : Isometry3 F)
           (vel redundant : Vec F) : M (Control F) (Vec F) :=
  s <~ this ;;
  if negb (Nat.eqb (length redundant) (n s))
  then _ <~ cerr "[ERROR] [SERIALKINEMATICCONTROL] track_cartesian_trajectory(): Expected a nx1 vector for the redundant task." ;;
       mret (vscale s_0_9 (get_joint_velocities s))
  else
    v <~ lift (vadd vel (vscale (k s) (get_pose_error pose (get_endpoint_pose s)))) ;;
    move_at_speed_redundant fuel v redundant.

(** [SerialKinematicControl::track_joint_trajectory(pos,vel)], lines 343-373. *)
Definition track_joint_trajectory (pos vel : Vec F) : M (Control F) (Vec F) :=
  s <~ this ;;
  if negb (Nat.eqb (length pos) (n s)) || negb (Nat.eqb (length vel) (n s))
  then _ <~ cerr "[ERROR] [SERIALKINEMATICCONTROL] track_joint_trajectory(): Wrong number of joints in the position or velocity vector." ;;
       mret (vscale s_0_9 (get_joint_velocities s))
  else
    mfold (fun ctrl i =>
             vi <~ lift (vget vel i) ;;
             pi <~ lift (vget pos i) ;;
             out <~ get_speed_limit i ;;
             let lower := fst out in
             let upper := snd out in
             lift (vset ctrl i
                     (saturate (vi + k s * (pi - get_joint_position s i))
                               lower upper)))
          (seq 0 (n s)) (vzero (n s)).

(** [SerialKinematicControl::track_joint_trajectory(pos,vel,acc)], lines 516-531. *)
Definition track_joint_trajectory_acc (pos vel acc : Vec F) : M (Control F) (Vec F) :=
  s <~ this ;;
  if negb (Nat.eqb (length pos) (n s)) || negb (Nat.eqb (length vel) (n s))
     || negb (Nat.eqb (length acc) (n s))
  then _ <~ cerr "[ERROR] [SERIAL KINEMATIC CONTROL] track_joint_trajectory(): Wrong number of elements in the position, velocity or acceleration argument." ;;
       mret (vzero (n s))
  else
    e <~ lift (vsub pos (q s)) ;;
    v <~ lift (vadd vel (vscale (kp s) e)) ;;
    move_joints v.
End Controller.

(** ** The two arithmetics *)

(** IEEE-754 binary32 with round-to-nearest-even, from the Standard Library's
    executable specification of floating point. *)
Module Binary32.
Definition prec : Z := 24.
Definition emax : Z := 128.

Definition f32 : Type := spec_float.

Definition of_Z (z : Z) : f32 := binary_normalize prec emax z 0 false.

(** The literal [n/d], correctly rounded. *)
Definition lit (n : Z) (d : positive) : f32 :=
  SFdiv prec emax (of_Z n) (of_Z (Zpos d)).

(** IEEE-754 double precision. *)
Definition prec64 : Z := 53.
Definition emax64 : Z := 1024.

Definition f64 : Type := spec_float.

Definition lit64 (n : Z) (d : positive) : f64 :=
  SFdiv prec64 emax64 (binary_normalize prec64 emax64 n 0 false)
        (binary_normalize prec64 emax64 (Zpos d) 0 false).

(** [float] to [double]: the same value, with the mantissa of a double. *)
Definition to_f64 (x : f32) : f64 :=
  match x with
  | S754_finite s m e => binary_round prec64 emax64 s m e
  | _ => x
  end.

(** [double] to [float]: rounded to nearest even. *)
Definition to_f32 (x : f64) : f32 :=
  match x with
  | S754_finite s m e => binary_round prec emax s m e
  | _ => x
  end.

#[export] Instance f32_scalar : Scalar f32 := {|
  s_lit  := lit;
  s_add  := SFadd prec emax;
  s_sub  := SFsub prec emax;
  s_mul  := SFmul prec emax;
  s_div  := SFdiv prec emax;
  s_opp  := SFopp;
  s_abs  := SFabs;
  s_sqrt := SFsqrt prec emax;
  s_ltb  := SFltb;
  s_leb  := SFleb;
  wide   := f64;
  w_lit  := lit64;
  widen  := to_f64;
  narrow := to_f32;
  w_add  := SFadd prec64 emax64;
  w_sub  := SFsub prec64 emax64;
  w_mul  := SFmul prec64 emax64;
  w_ltb  := SFltb
|}.
End Binary32.

(** The real numbers. *)
Module Exact.
Definition Rltb (a b : R) : bool := if Rlt_dec a b then true else false.
Definition Rleb (a b : R) : bool := if Rle_dec a b then true else false.

(** The reals; [double] is the reals as well.  Division is the total
    [Rdiv], for which [x / 0 = 0], where the program gets an infinity or a
    NaN: a statement over the reals speaks of the program only under
    hypotheses that keep the divisors of the code away from zero. *)
#[export] Instance RScalar : Scalar R := {|
  s_lit n d := (IZR n / IZR (Zpos d))%R;
  s_add  := Rplus;
  s_sub  := Rminus;
  s_mul  := Rmult;
  s_div  := Rdiv;
  s_opp  := Ropp;
  s_abs  := Rabs;
  s_sqrt := sqrt;
  s_ltb  := Rltb;
  s_leb  := Rleb;
  wide   := R;
  w_lit n d := (IZR n / IZR (Zpos d))%R;
  widen x := x;
  narrow x := x;
  w_add  := Rplus;
  w_sub  := Rminus;
  w_mul  := Rmult;
  w_ltb  := Rltb
|}.
End Exact.

(** ** A concrete arm and linear algebra for running the code *)

Section Concrete.
Context {F : Type} `{Scalar F}.
Local Open Scope scalar_scope.

(** Systems of one equation: [a*x = b] is solved by [x = b/a].  Larger
    systems are not provided. *)
Definition lu_1x1 (M : Mat F) (b : Vec F) : outcome (Vec F) :=
  match rows M, cols M, b with
  | 1, 1, [b0] => Ok [b0 / coeff M 0 0]
  | _, _, _ => Fault
  end.

(** The determinant by expansion along the first row. *)
Fixpoint det_rec (size : nat) (m : nat -> nat -> F) : F :=
  match size with
  | O => s_one
  | S size' =>
      fold_left
        (fun acc j =>
           let minor := fun a b => m (S a) (if Nat.ltb b j then b else S b) in
           let term := m 0 j * det_rec size' minor in
           if Nat.even j then acc + term else acc - term)
        (seq 0 size) s_zero
  end.

#[local] Instance scalar_systems : External F := {|
  partialPivLu_solve := lu_1x1;
  determinant M := det_rec (rows M) (coeff M);
  solve_linear_system f H x0 := lift (lu_1x1 H f)
|}.

(** Eigen's conversion of a rotation matrix to a quaternion (Shoemake). *)
Definition shoemake (m : Mat F) : Quaternion F :=
  let t := coeff m 0 0 + coeff m 1 1 + coeff m 2 2 in
  if s_zero <? t then
    let t := s_sqrt (t + s_one) in
    let w := s_half * t in
    let t := s_half / t in
    mkQuat w ((coeff m 2 1 - coeff m 1 2) * t)
             ((coeff m 0 2 - coeff m 2 0) * t)
             ((coeff m 1 0 - coeff m 0 1) * t)
  else
    let i := if coeff m 0 0 <? coeff m 1 1 then 1 else 0 in
    let i := if coeff m i i <? coeff m 2 2 then 2 else i in
    let j := Nat.modulo (i + 1) 3 in
    let k := Nat.modulo (j + 1) 3 in
    let t := s_sqrt (coeff m i i - coeff m j j - coeff m k k + s_one) in
    let ci := s_half * t in
    let t := s_half / t in
    let w := (coeff m k j - coeff m j k) * t in
    let cj := (coeff m j i + coeff m i j) * t in
    let ck := (coeff m k i + coeff m i k) * t in
    let pick (c : nat) := if Nat.eqb c i then ci else if Nat.eqb c j then cj else ck in
    mkQuat w (pick 0) (pick 1) (pick 2).

(** The state that the base classes keep: joint velocities, Jacobian,
    inertia and endpoint pose of the current cycle. *)
Record Snapshot : Type := mkSnapshot {
  snap_qdot    : Vec F;
  snap_J       : Mat F;
  snap_inertia : Mat F;
  snap_pose    : Isometry3 F
}.

(** An arm whose accessors read the snapshot; the pseudo-inverse is taken
    as the transpose and the Jacobian as constant in the joint positions. *)
Definition snapshot_arm (b : Snapshot) : KinematicBase F := {|
  get_joint_velocities _ := snap_qdot b;
  get_joint_velocity _ i := nth i (snap_qdot b) s_zero;
  get_joint_position s i := nth i (q s) s_zero;
  get_jacobian _ := snap_J b;
  get_inertia _ := snap_inertia b;
  get_endpoint_pose _ := snap_pose b;
  get_pseudoinverse _ J := mtranspose J;
  get_partial_derivative _ J _ := mzero (rows J) (cols J);
  move_joints v := mret v;
  quaternion_of_rotation := shoemake
|}.

(** Matrices written row by row. *)
Definition mat_of_rows (r c : nat) (l : list (list F)) : Mat F :=
  mkMat r c (fun i j => nth j (nth i l []) s_zero).
End Concrete.

(** ** Test inputs in binary32 *)

Module Bench.
Import Binary32.

(** A solver configuration: full initial step halved on violation, barrier
    weight 100 shrunk by 0.01 per iteration and multiplied by 10 on a
    violation, tolerance 0.01, at most 20 iterations. *)
Definition cfg : QPSolver f32 :=
  mkQPSolver (lit 1 1) (lit 1 2) (lit 1 100) (lit 1 10) (lit 1 100)
             (lit 100 1) (lit 10 1) 20.

Definition mat1 (a : f32) : Mat f32 := mat_of_rows 1 1 [[a]].

(** A one-joint arm at position 0 with position limits [-1,1], velocity
    limit 1, acceleration limit 4 and control period 1; its speed limits
    are [-1] and [1]. *)
Definition arm1 : Control f32 :=
  mkControl cfg 1 (lit 1 1) (lit 1 1) [lit 0 1] [(lit (-1) 1, lit 1 1)]
            [lit 1 1] [lit 4 1] (lit 1 1).

Definition origin : Isometry3 f32 :=
  mkIso (mkV3 (lit 0 1) (lit 0 1) (lit 0 1)) (mident 3 3).

(** A one-joint arm with position limits [0.1, 0.6], just above the middle
    of its range at 0.3500001. *)
Definition arm_mid : Control f32 :=
  mkControl cfg 1 (lit 1 1) (lit 1 1) [lit 3500001 10000000]
            [(lit 1 10, lit 6 10)] [lit 1 1] [lit 4 1] (lit 1 1).

(** A two-joint arm with the same limits on both joints. *)
Definition arm2 : Control f32 :=
  mkControl cfg 2 (lit 1 1) (lit 1 1) [lit 0 1; lit 0 1]
            [(lit (-1) 1, lit 1 1); (lit (-1) 1, lit 1 1)]
            [lit 1 1; lit 1 1] [lit 4 1; lit 4 1] (lit 1 1).

(** The arm moves at joint velocity 1. *)
Definition snap1 : Snapshot :=
  mkSnapshot [lit 1 1]
             (mat_of_rows 6 1 [[lit 1 1]; [lit 0 1]; [lit 0 1];
                               [lit 0 1]; [lit 0 1]; [lit 0 1]])
             (mat1 (lit 1 1)) origin.

(** The rotation by 120 degrees about the axis (1,1,1); its quaternion is
    (0.5, 0.5, 0.5, 0.5). *)
Definition turn : Mat f32 :=
  mat_of_rows 3 3 [[lit 0 1; lit 0 1; lit 1 1];
                   [lit 1 1; lit 0 1; lit 0 1];
                   [lit 0 1; lit 1 1; lit 0 1]].

Definition desired : Isometry3 f32 :=
  mkIso (mkV3 (lit 1 1) (lit 2 1) (lit 3 1)) turn.

(** The two-joint arm moves at joint velocities 1 and -1; its Jacobian maps
    the joints to the first two task directions. *)
Definition snap2 : Snapshot :=
  mkSnapshot [lit 1 1; lit (-1) 1]
             (mat_of_rows 6 2 [[lit 1 1; lit 0 1]; [lit 0 1; lit 1 1];
                               [lit 0 1; lit 0 1]; [lit 0 1; lit 0 1];
                               [lit 0 1; lit 0 1]; [lit 0 1; lit 0 1]])
             (mident 2 2) origin.

#[export] Instance systems : External f32 := scalar_systems.
#[export] Instance base1 : KinematicBase f32 := snapshot_arm snap1.
Definition base2 : KinematicBase f32 := snapshot_arm snap2.
End Bench.

(** ** Test inputs in exact arithmetic *)

Module ExactBench.
Import Exact.

(** The solver configuration of [Bench.cfg], over the reals. *)
Definition cfg_exact : QPSolver R :=
  mkQPSolver 1%R (1 / 2)%R (1 / 100)%R (1 / 10)%R (1 / 100)%R 100%R 10%R 20.

(** A one-joint arm at position 1/2 with position limits [-1,1]. *)
Definition arm_exact : Control R :=
  mkControl cfg_exact 1 1%R 1%R [(1 / 2)%R] [((-1)%R, 1%R)] [1%R] [4%R] 1%R.

Definition origin_exact : Isometry3 R := mkIso (mkV3 0%R 0%R 0%R) (mident 3 3).

(** The arm moves at joint velocity 1, towards its upper limit. *)
Definition snap_exact : Snapshot :=
  mkSnapshot [1%R] (mkMat 6 1 (fun i _ => if Nat.eqb i 0 then 1%R else 0%R))
             (mident 1 1) origin_exact.


Definition one : Mat R := mat_of_rows 1 1 [[1%R]].

#[export] Instance systems_exact : External R := scalar_systems.
#[export] Instance base_exact : KinematicBase R := snapshot_arm snap_exact.
End ExactBench.

(** ** Statements *)

Section Statements.
Context {F : Type} `{External F} {KB : KinematicBase F}.

(** The damped fallback: 0.9 times the current joint velocities, the
    object unchanged, one diagnostic. *)
Definition damped (s : Control F) (r : outcome (Vec F * Control F * list diagnostic))
  : Prop :=
  exists d, r = Ok (vscale s_0_9 (get_joint_velocities s), s, [d]).

(** The same with a zero command. *)
Definition halted (s : Control F) (r : outcome (Vec F * Control F * list diagnostic))
  : Prop :=
  exists d, r = Ok (vzero (n s), s, [d]).

(** What each operation with a size check returns for a vector [v] whose
    size is not the joint count (and, for [solve_joint_control], for a
    matrix [U] that is not n-by-n). *)
Definition fallback_on_mismatch (fuel : nat) (s : Control F) (v : Vec F)
           (U : Mat F) : Prop :=
  (forall vel, damped s (move_at_speed_redundant fuel vel v s))
  /\ damped s (move_to_position v s)
  /\ (forall pose, damped s (move_to_pose_redundant fuel pose v s))
  /\ (forall pose vel, damped s (track_cartesian_trajectory_redundant fuel pose vel v s))
  /\ (forall w, damped s (track_joint_trajectory v w s)
                /\ damped s (track_joint_trajectory w v s))
  /\ (forall W, damped s (solve_joint_control v W s))
  /\ (forall y, damped s (solve_joint_control y U s))
  /\ (forall a b, halted s (track_joint_trajectory_acc v a b s)
                  /\ halted s (track_joint_trajectory_acc a v b s)
                  /\ halted s (track_joint_trajectory_acc a b v s)).

(** The slack [d_j = B_j*x - c_j] of constraint [j], and the slacks of the
    constraints [l]. *)
Definition slack (bt : list (Vec F)) (c x : Vec F) (j : nat) : outcome F :=
  btj <- of_option (nth_error bt j) ;;
  p   <- vdot btj x ;;
  cj  <- vget c j ;;
  Ok (p - cj)%S.

Fixpoint slacks (bt : list (Vec F)) (c x : Vec F) (l : list nat)
  : outcome (list F) :=
  match l with
  | [] => Ok []
  | j :: l' => r <- slack bt c x j ;; rs <- slacks bt c x l' ;; Ok (r :: rs)
  end.

Definition negative (r : F) : bool := (r <? s_zero)%S.

(** A negative slack is replaced by the floor [1E-02]. *)
Definition floored (r : F) : F := if negative r then s_1em2 else r.

(** A negative slack multiplies the barrier weight by [uMod]. *)
Definition raised (cfg : QPSolver F) (u r : F) : F :=
  if negative r then (u * uMod cfg)%S else u.




(** The variables of the pass have the sizes of a problem with [n]
    unknowns and [m] constraints. *)
Definition shaped (n m : nat) (s : @pass_state F) : Prop :=
  length (ps_g s) = n /\ rows (ps_I s) = n /\ cols (ps_I s) = n
  /\ length (ps_d s) = m.

(** The step size after [k] reductions. *)
Definition shrunk (cfg : QPSolver F) (k : nat) : F :=
  Nat.iter k (fun a => (a * alphaMod cfg)%S) (alpha0 cfg).

(** How the interior-point loop ends, in the words of the specification:
    with [count] iterations left, from the slacks [d] and the state [st],
    the loop returns [x] when the budget of iterations is used up, or at the
    first iteration whose step [alpha*|dx|] is below the tolerance. *)
Inductive exits (fuel : nat) (cfg : QPSolver F) (Hm : Mat F) (f : Vec F)
          (bt : list (Vec F)) (btb : list (Mat F)) (c : Vec F) (m n : nat)
  : nat -> list F -> ipm_state -> Vec F -> Prop :=
| exits_budget d st :
    exits fuel cfg Hm f bt btb c m n 0 d st (ip_x st)
| exits_tolerance count d st x beta p dx alpha :
    newton_step fuel cfg Hm f bt btb c m n d st = Ok (x, beta, p, dx, alpha) ->
    (alpha * vnorm dx <? tol cfg)%S = true ->
    exits fuel cfg Hm f bt btb c m n (S count) d st x
| exits_step count d st x beta p dx alpha x' xr :
    newton_step fuel cfg Hm f bt btb c m n d st = Ok (x, beta, p, dx, alpha) ->
    (alpha * vnorm dx <? tol cfg)%S = false ->
    vadd x (vscale alpha dx) = Ok x' ->
    exits fuel cfg Hm f bt btb c m n count (ps_d p)
          (mkIpm x' x beta (ps_u p * beta)%S) xr ->
    exits fuel cfg Hm f bt btb c m n (S count) d st xr.
End Statements.

(** ** The unconstrained least squares and the controller's tables *)

Section Unconstrained.
Context {F : Type} `{External F}.

(** [QPSolver::least_squares(y,A,W,x0)], lines 149-180:
    min 0.5*(y-A*x)'*W*(y-A*x). *)
Definition least_squares (y : Vec F) (A W : Mat F) (x0 : Vec F)
  : M (QPSolver F) (Vec F) :=
  let m := rows A in
  let n := cols A in
  if negb (Nat.eqb (length y) m) || negb (Nat.eqb (length x0) n)
  then _ <~ emit least_squares_dimension_error ;; mret x0
  else if negb (Nat.eqb (rows W) m) || negb (Nat.eqb (cols W) m)
  then _ <~ emit least_squares_weight_error ;; mret x0
  else
    AtW <~ lift (mmul (mtranspose A) W) ;;
    AtWA <~ lift (mmul AtW A) ;;
    AtWy <~ lift (mvmul AtW y) ;;
    solve AtWA AtWy x0.
End Unconstrained.

Section ControlStatements.
Context {F : Type} `{Scalar F}.

(** The joint positions and the tables of position, velocity and
    acceleration limits have one entry for each of the [n] joints. *)
Definition sized (s : Control F) : Prop :=
  length (q s) = n s /\ length (pLim s) = n s
  /\ length (vLim s) = n s /\ length (aLim s) = n s.

(** The entries of joint [i]. *)
Definition joint_entry (s : Control F) (i : nat) (lim : F * F) (qi vl al : F)
  : Prop :=
  nth_error (pLim s) i = Some lim /\ nth_error (q s) i = Some qi
  /\ nth_error (vLim s) i = Some vl /\ nth_error (aLim s) i = Some al.
End ControlStatements.

Module ExactControlStatements.
Import Exact.

(** A controller with a positive time step whose joints lie inside their
    position limits and whose velocity and acceleration limits are not
    negative. *)
Definition operational (s : Control R) : Prop :=
  sized s /\ (0 < dt s)%R
  /\ forall i lim qi vl al,
       joint_entry s i lim qi vl al ->
       (fst lim <= qi <= snd lim)%R /\ (0 <= vl)%R /\ (0 <= al)%R.

(** The command [c] lies between the speed limits that the code computes
    for joint [i], and it is the wanted command [w] when [w] lies between
    them. *)
Definition clamped_to_limits (s : Control R) (i : nat) (w c : R) : Prop :=
  exists lower upper,
    get_speed_limit i s = Ok ((lower, upper), s, [])
    /\ (lower <= c <= upper)%R
    /\ ((lower <= w <= upper)%R -> c = w).
End ExactControlStatements.

(** ** Further inputs for running the code *)

Module BenchInputs.
Import Binary32 Bench.

(** The task velocity 1 along the first direction. *)
Definition forward : Vec f32 :=
  [lit 1 1; lit 0 1; lit 0 1; lit 0 1; lit 0 1; lit 0 1].
End BenchInputs.

Module ExactInputs.
Import Exact ExactBench.

(** The arm of [arm_exact] standing at its lower position limit. *)
Definition arm_at_limit : Control R :=
  mkControl cfg_exact 1 1%R 1%R [(-1)%R] [((-1)%R, 1%R)] [1%R] [4%R] 1%R.

(** A two-joint arm in the middle of its limits. *)
Definition arm_two : Control R :=
  mkControl cfg_exact 2 1%R 1%R [0%R; 0%R]
            [((-1)%R, 1%R); ((-1)%R, 1%R)] [1%R; 1%R] [4%R; 4%R] 1%R.

(** Its Jacobian maps the two joints to the first two task directions, so
    that [J*J'] has rank two and is singular. *)
Definition jacobian_two : Mat R :=
  mat_of_rows 6 2 [[1%R; 0%R]; [0%R; 1%R]; [0%R; 0%R];
                   [0%R; 0%R]; [0%R; 0%R]; [0%R; 0%R]].

(** The base classes of the two-joint arm.  The pseudo-inverse of this
    Jacobian is its transpose; the derivative of the Jacobian with respect
    to a joint is taken to be the Jacobian itself, so that the trace of
    [dJ*invJ] is 2. *)
Definition turning_arm : KinematicBase R := {|
  get_joint_velocities _ := [0%R; 0%R];
  get_joint_velocity _ _ := 0%R;
  get_joint_position s i := nth i (q s) 0%R;
  get_jacobian _ := jacobian_two;
  get_inertia _ := mident 2 2;
  get_endpoint_pose _ := origin_exact;
  get_pseudoinverse _ J := mtranspose J;
  get_partial_derivative _ J _ := J;
  move_joints v := mret v;
  quaternion_of_rotation := shoemake
|}.
End ExactInputs.

(** * Properties *)

Lemma obind_Ok_inv {A B : Type} (m : outcome A) (k : A -> outcome B) (b : B) :
  obind m k = Ok b -> exists a, m = Ok a /\ k a = Ok b.
Proof.
  destruct m as [a| |]; simpl; intros E; try discriminate.
  exists a; split; [reflexivity | exact E].
Qed.

Module ExactFacts.
Import Exact.

Lemma Rltb_true (a b : R) : Rltb a b = true <-> (a < b)%R.
Proof. unfold Rltb; destruct (Rlt_dec a b); split; intros; try discriminate; tauto. Qed.

Lemma Rltb_false (a b : R) : Rltb a b = false <-> (b <= a)%R.
Proof. unfold Rltb; destruct (Rlt_dec a b); split; intros; try discriminate; try lra; reflexivity. Qed.

Lemma Rleb_true (a b : R) : Rleb a b = true <-> (a <= b)%R.
Proof. unfold Rleb; destruct (Rle_dec a b); split; intros; try discriminate; tauto. Qed.

Lemma Rleb_false (a b : R) : Rleb a b = false <-> (b < a)%R.
Proof. unfold Rleb; destruct (Rle_dec a b); split; intros; try discriminate; try lra; reflexivity. Qed.
Local Open Scope R_scope.

Lemma lit_unit (z : Z) : @s_lit R _ z 1%positive = IZR z.
Proof. simpl. unfold Rdiv. rewrite Rinv_1. apply Rmult_1_r. Qed.

Lemma R_zero : @s_zero R _ = 0.
Proof. apply lit_unit. Qed.
Lemma R_one : @s_one R _ = 1.
Proof. apply lit_unit. Qed.
Lemma R_two : @s_two R _ = 2.
Proof. apply lit_unit. Qed.
Lemma R_four : @s_four R _ = 4.
Proof. apply lit_unit. Qed.
End ExactFacts.

(** ** Dimension checks of the control law *)

Section DimensionFallback.
Context {F : Type} `{External F} {KB : KinematicBase F}.

Lemma eqb_mismatch (a b : nat) : a <> b -> negb (Nat.eqb a b) = true.
Proof. intros Hab; apply negb_true_iff, Nat.eqb_neq, Hab. Qed.

(** C1 (amended).  Every operation of the control law that checks a size
    returns 0.9 times the current joint velocities, with a diagnostic and
    the controller unchanged, when the size is wrong; the three-argument
    [track_joint_trajectory] returns the zero vector instead. *)
Theorem dimension_mismatch_fallback :
  forall (fuel : nat) (s : Control F) (v : Vec F) (U : Mat F),
    length v <> n s ->
    rows U <> n s \/ cols U <> n s ->
    fallback_on_mismatch fuel s v U.
Proof.
  intros fuel s v U Hv HU.
  pose proof (eqb_mismatch Hv) as Ev.
  assert (EU : negb (Nat.eqb (rows U) (n s)) || negb (Nat.eqb (cols U) (n s)) = true).
  { destruct HU as [HU | HU]; rewrite (eqb_mismatch HU);
      [reflexivity | apply orb_true_r]. }
  unfold fallback_on_mismatch, damped, halted.
  repeat split; intros;
    try (unfold move_at_speed_redundant, move_to_position, move_to_pose_redundant,
           track_cartesian_trajectory_redundant, track_joint_trajectory,
           solve_joint_control, track_joint_trajectory_acc,
           mbind, this, cerr, emit, mret).
  - rewrite Ev; eexists; reflexivity.
  - rewrite Ev; eexists; reflexivity.
  - rewrite Ev; eexists; reflexivity.
  - rewrite Ev; eexists; reflexivity.
  - rewrite Ev; eexists; reflexivity.
  - rewrite Ev, orb_true_r; eexists; reflexivity.
  - rewrite Ev; eexists; reflexivity.
  - destruct (negb (Nat.eqb (length y) (n s))); [| rewrite EU];
      eexists; reflexivity.
  - rewrite Ev; eexists; reflexivity.
  - rewrite Ev, orb_true_r; eexists; reflexivity.
  - rewrite Ev, orb_true_r; eexists; reflexivity.
Qed.
End DimensionFallback.

Module DimensionRuns.
Import Binary32 Bench.

Lemma dimension_mismatch_fallback_witness :
  (length (@nil f32) <> n arm1
   /\ (rows (mzero 2 1 : Mat f32) <> n arm1 \/ cols (mzero 2 1 : Mat f32) <> n arm1))
  /\ fallback_on_mismatch 0 arm1 [] (mzero 2 1).
Proof.
  assert (Hv : length (@nil f32) <> n arm1) by (simpl; lia).
  assert (HU : rows (mzero 2 1 : Mat f32) <> n arm1
               \/ cols (mzero 2 1 : Mat f32) <> n arm1) by (left; simpl; lia).
  split; [split; assumption |].
  apply dimension_mismatch_fallback; assumption.
Defined.

(** C1 (counterexample).  On the one-joint arm moving at velocity 1, the
    three-argument [track_joint_trajectory] called with an empty position
    vector returns the zero command, which is not 0.9 times the joint
    velocities. *)
Lemma track_joint_trajectory_acc_returns_zero :
  length (@nil f32) <> n arm1
  /\ (exists d, track_joint_trajectory_acc [] [lit 1 1] [lit 1 1] arm1
                = Ok ([S754_zero false], arm1, [d]))
  /\ vscale s_0_9 (get_joint_velocities arm1) = [S754_finite false 15099494 (-24)]
  /\ [S754_zero false] <> vscale s_0_9 (get_joint_velocities arm1).
Proof.
  split; [simpl; lia |].
  split; [eexists; vm_compute; reflexivity |].
  split; [vm_compute; reflexivity |].
  vm_compute; discriminate.
Qed.
End DimensionRuns.

(** ** Back-substitution and the speed limits *)

Module JointControlRuns.
Import Binary32 Bench.

(** C3 (the code at a failing input).  On the one-joint arm the speed limits
    are [-1] and [1].  For the system [1*qdot = 0.5] the resolved command is
    [0.5], inside the limits, and clamping leaves it unchanged; the code
    returns [1].  Line 240 receives the limits in the order (upper, lower),
    so every command below the upper limit is replaced by the upper limit. *)
Lemma solve_joint_control_swaps_limits :
  get_speed_limit 0 arm1 = Ok ((lit (-1) 1, lit 1 1), arm1, [])
  /\ w_ltb (widen (s_abs (coeff (mat1 (lit 1 1)) 0 0))) w_1em5 = false
  /\ s_div (s_sub (lit 1 2) s_zero) (coeff (mat1 (lit 1 1)) 0 0) = lit 1 2
  /\ saturate (lit 1 2) (lit (-1) 1) (lit 1 1) = lit 1 2
  /\ solve_joint_control [lit 1 2] (mat1 (lit 1 1)) arm1 = Ok ([lit 1 1], arm1, [])
  /\ lit 1 1 <> lit 1 2.
Proof.
  repeat split; try (vm_compute; reflexivity).
  vm_compute; discriminate.
Qed.

(** The test of line 235 and the fallback command are evaluated in double.
    A pivot equal to the float nearest to 1E-5 is below the double 1E-5,
    although it is not below itself; 0.9 times the velocity 3 is rounded
    once, to 11324621 * 2^-22, where the product of the floats 0.9 and 3 is
    11324620 * 2^-22. *)
Lemma solve_joint_control_in_double :
  w_ltb (widen (s_abs (lit 1 100000))) w_1em5 = true
  /\ s_ltb (s_abs (lit 1 100000)) (lit 1 100000) = false
  /\ narrow (w_mul w_0_9 (widen (lit 3 1))) = S754_finite false 11324621 (-22)
  /\ s_mul s_0_9 (lit 3 1) = S754_finite false 11324620 (-22).
Proof. repeat split; vm_compute; reflexivity. Qed.
End JointControlRuns.

(** ** Pose error *)

Section PoseError.
Context {F : Type} `{Scalar F} {KB : KinematicBase F}.

(** The orientation part of the pose error as the code computes it: the
    vector part of [qd*conj(qa)] when [dot(qd,qa) <= 0], its negation
    otherwise. *)
Lemma get_pose_error_as_coded (desired actual : Isometry3 F) :
  let qd := quaternion_of_rotation (rotation desired) in
  let qa := quaternion_of_rotation (rotation actual) in
  let qe := qmul qd (conjugate qa) in
  get_pose_error desired actual
  = v3list (v3sub (translation desired) (translation actual))
    ++ v3list (if (quat_dot qd qa <=? s_zero)%S then vec qe else v3neg (vec qe)).
Proof. reflexivity. Qed.
End PoseError.

Module PoseRuns.
Import Binary32 Bench.

(** C4 (the code at a failing input).  From the identity pose to [desired]
    the quaternions have dot product 0.5, which is positive, and
    [qd*conj(qa)] has vector part (0.5, 0.5, 0.5); the claim leaves it as it
    is, the code returns its negation. *)
Lemma get_pose_error_negates_on_positive_dot :
  let qd := quaternion_of_rotation (rotation desired) in
  let qa := quaternion_of_rotation (rotation origin) in
  quat_dot qd qa = lit 1 2
  /\ (quat_dot qd qa <=? s_zero)%S = false
  /\ vec (qmul qd (conjugate qa)) = mkV3 (lit 1 2) (lit 1 2) (lit 1 2)
  /\ get_pose_error desired origin
     = [lit 1 1; lit 2 1; lit 3 1; lit (-1) 2; lit (-1) 2; lit (-1) 2].
Proof. repeat split; vm_compute; reflexivity. Qed.
End PoseRuns.

(** ** Dimension checks of the solver *)

Section SolverChecks.
Context {F : Type} `{External F}.

(** The unconstrained [solve] returns [x0], with a diagnostic, when [H] is
    not n-by-n or [f] has not n coefficients. *)
Lemma solve_rejects_mismatch (cfg : QPSolver F) (Hm : Mat F) (f x0 : Vec F) :
  rows Hm <> length x0 \/ cols Hm <> length x0 \/ length f <> length x0 ->
  solve Hm f x0 cfg = Ok (x0, cfg, [solve_dimension_error]).
Proof.
  intros Hd. unfold solve.
  assert (E : negb (Nat.eqb (rows Hm) (length x0))
              || negb (Nat.eqb (cols Hm) (length x0))
              || negb (Nat.eqb (length f) (length x0)) = true).
  { destruct Hd as [Hd | [Hd | Hd]];
      apply Nat.eqb_neq in Hd; rewrite Hd; simpl;
      rewrite ?orb_true_r; reflexivity. }
  rewrite E. reflexivity.
Qed.

(** The constrained [solve] does the same when [H], [f] or [c] has the wrong
    size.  The number of columns of [B] is not among the tests. *)
Lemma solve_constrained_rejects_mismatch (fuel : nat) (cfg : QPSolver F)
      (Hm : Mat F) (f : Vec F) (B : Mat F) (c x0 : Vec F) :
  rows Hm <> length x0 \/ cols Hm <> length x0 \/ length f <> length x0
  \/ rows B <> length c ->
  solve_constrained fuel Hm f B c x0 cfg
  = Ok (x0, cfg, [solve_constrained_dimension_error]).
Proof.
  intros Hd. unfold solve_constrained.
  assert (E : negb (Nat.eqb (rows Hm) (length x0))
              || negb (Nat.eqb (cols Hm) (length x0))
              || negb (Nat.eqb (length f) (length x0))
              || negb (Nat.eqb (rows B) (length c)) = true).
  { destruct Hd as [Hd | [Hd | [Hd | Hd]]];
      apply Nat.eqb_neq in Hd; rewrite Hd; simpl;
      rewrite ?orb_true_r; reflexivity. }
  rewrite E. reflexivity.
Qed.
End SolverChecks.

Module SolverCheckRuns.
Import Binary32 Bench.

(** C5 (the code at a failing input).  [B] is 1-by-2 and [x0] has one
    coefficient.  The test of line 41 passes, no diagnostic is written and
    [x0] is not returned: the loop starts, and [bt[0].dot(x)] of line 104
    meets operands of sizes 2 and 1. *)
Lemma solve_constrained_accepts_wide_B :
  let B := mat_of_rows 1 2 [[lit 1 1; lit 1 1]] in
  cols B <> length [lit 0 1]
  /\ vdot (mrow B 0) [lit 0 1] = Fault
  /\ solve_constrained 200 (mat1 (lit 1 1)) [lit 0 1] B [lit 0 1] [lit 0 1] cfg
     = Fault.
Proof.
  repeat split; try (vm_compute; reflexivity).
  simpl; lia.
Qed.
End SolverCheckRuns.

(** ** Facts on vectors *)

Section VectorFacts.
Context {F : Type} `{Scalar F}.

Lemma vzero_length (m : nat) : length (vzero m) = m.
Proof. apply repeat_length. Qed.

Lemma vset_spec (v : Vec F) (i : nat) (a : F) :
  i < length v ->
  exists v', vset v i a = Ok v'
             /\ length v' = length v
             /\ nth_error v' i = Some a
             /\ (forall j, j <> i -> nth_error v' j = nth_error v j).
Proof.
  revert i; induction v as [| b v IH]; intros i Hi; simpl in Hi; [lia |].
  destruct i as [| i].
  - exists (a :: v); simpl; repeat split.
    intros [| j] Hj; [congruence | reflexivity].
  - destruct (IH i ltac:(lia)) as (v' & E & L & Hn & Ho).
    exists (b :: v'); simpl; rewrite E; simpl; repeat split.
    + now rewrite L.
    + exact Hn.
    + intros [| j] Hj; [reflexivity |]. simpl. apply Ho. congruence.
Qed.

Lemma vset_Ok_inv (v v' : Vec F) (i : nat) (a : F) :
  vset v i a = Ok v' ->
  i < length v
  /\ length v' = length v
  /\ nth_error v' i = Some a
  /\ (forall j, j <> i -> nth_error v' j = nth_error v j).
Proof.
  intros E.
  assert (Hi : i < length v).
  { revert i v' E; induction v as [| b v IH]; intros i v' E; simpl in E;
      [discriminate |].
    destruct i as [| i]; simpl; [lia |].
    apply obind_Ok_inv in E. destruct E as (v'' & E & _).
    apply IH in E. lia. }
  destruct (vset_spec v a Hi) as (w & E' & L & Hn & Ho).
  rewrite E in E'. injection E' as <-. auto.
Qed.

Lemma zipw_length (op : F -> F -> F) (u v : Vec F) :
  length u = length v -> length (zipw op u v) = length u.
Proof.
  revert v; induction u as [| a u IH]; intros [| b v] L; simpl in *;
    try reflexivity; try discriminate.
  f_equal. apply IH. lia.
Qed.

Lemma vadd_Ok (u v : Vec F) :
  length u = length v ->
  exists w, vadd u v = Ok w /\ length w = length u.
Proof.
  intros L. unfold vadd. rewrite (proj2 (Nat.eqb_eq _ _) L).
  eexists; split; [reflexivity | now apply zipw_length].
Qed.

Lemma vsub_Ok (u v : Vec F) :
  length u = length v ->
  exists w, vsub u v = Ok w /\ length w = length u.
Proof.
  intros L. unfold vsub. rewrite (proj2 (Nat.eqb_eq _ _) L).
  eexists; split; [reflexivity | now apply zipw_length].
Qed.

Lemma vscale_length (a : F) (v : Vec F) : length (vscale a v) = length v.
Proof. apply length_map. Qed.

Lemma vneg_length (v : Vec F) : length (vneg v) = length v.
Proof. apply length_map. Qed.

Lemma mrow_length (M : Mat F) (j : nat) : length (mrow M j) = cols M.
Proof. unfold mrow. now rewrite length_map, length_seq. Qed.

Lemma mmul_Ok (A B : Mat F) :
  cols A = rows B ->
  mmul A B = Ok (mkMat (rows A) (cols B)
                   (fun i j => dot_from s_zero (mrow A i) (mcol B j))).
Proof. intros L. unfold mmul. now rewrite (proj2 (Nat.eqb_eq _ _) L). Qed.

Lemma mvmul_Ok (M : Mat F) (v : Vec F) :
  cols M = length v ->
  exists w, mvmul M v = Ok w /\ length w = rows M.
Proof.
  intros L. unfold mvmul. rewrite (proj2 (Nat.eqb_eq _ _) L).
  eexists; split; [reflexivity |]. now rewrite length_map, length_seq.
Qed.
End VectorFacts.

(** ** The size check ignores the acceleration *)

Section JointTrajectory.
Context {F : Type} `{External F} {KB : KinematicBase F}.

(** C10.  For a fixed state and fixed position and velocity targets, the
    three-argument [track_joint_trajectory] returns the same outcome for any
    two acceleration vectors of the right size. *)
Theorem track_joint_trajectory_acc_ignores_acc :
  forall (s : Control F) (pos vel acc1 acc2 : Vec F),
    length acc1 = n s ->
    length acc2 = n s ->
    track_joint_trajectory_acc pos vel acc1 s
    = track_joint_trajectory_acc pos vel acc2 s.
Proof.
  intros s pos vel acc1 acc2 L1 L2.
  unfold track_joint_trajectory_acc, mbind, this.
  rewrite L1, L2. reflexivity.
Qed.
End JointTrajectory.

Module JointTrajectoryRuns.
Import Binary32 Bench.

Lemma track_joint_trajectory_acc_ignores_acc_witness :
  (length [lit 1 1] = n arm1 /\ length [lit 2 1] = n arm1)
  /\ track_joint_trajectory_acc [lit 1 2] [lit 1 1] [lit 1 1] arm1
     = track_joint_trajectory_acc [lit 1 2] [lit 1 1] [lit 2 1] arm1.
Proof.
  split; [split; reflexivity |].
  apply track_joint_trajectory_acc_ignores_acc; reflexivity.
Defined.

(** The call of the witness returns a command: 1 + 1*(0.5 - 0). *)
Lemma track_joint_trajectory_acc_runs :
  track_joint_trajectory_acc [lit 1 2] [lit 1 1] [lit 2 1] arm1
  = Ok ([lit 3 2], arm1, []).
Proof. vm_compute. reflexivity. Qed.
End JointTrajectoryRuns.

(** ** Singularity avoidance *)

Section Singularity.
Context {F : Type} `{External F} {KB : KinematicBase F}.

Lemma mfold_cons {S A B : Type} (body : B -> A -> M S B) (a : A) (l : list A)
      (b : B) :
  mfold body (a :: l) b = mbind (body b a) (fun b' => mfold body l b').
Proof. reflexivity. Qed.

Lemma gradient_loop_keeps_first (s : Control F) (J invJ : Mat F) (scalar mu : F)
      (l : list nat) (grad : Vec F) :
  (forall i, In i l -> 1 <= i < length grad) ->
  (forall i, cols (get_partial_derivative s J i) = rows invJ) ->
  nth_error grad 0 = Some s_zero ->
  exists grad',
    mfold (fun grad i =>
             P <~ lift (mmul (get_partial_derivative s J i) invJ) ;;
             lift (vset grad i (scalar * mu * mtrace P)%S))
          l grad s
    = Ok (grad', s, [])
    /\ length grad' = length grad
    /\ nth_error grad' 0 = Some s_zero.
Proof.
  revert grad; induction l as [| i l IH]; intros grad Hl Hshape Hz.
  - exists grad. simpl. repeat split. exact Hz.
  - assert (Hi : 1 <= i < length grad) by (apply Hl; now left).
    rewrite mfold_cons. unfold mbind at 1. cbv beta. unfold mbind at 1.
    rewrite (mmul_Ok _ _ (Hshape i)). unfold lift at 1.
    match goal with
    | |- context [vset grad i ?a] =>
        destruct (vset_spec grad a (proj2 Hi)) as (g1 & E1 & L1 & _ & O1)
    end.
    rewrite E1. unfold lift at 1.
    destruct (IH g1) as (g2 & E2 & L2 & Z2).
    + intros j Hj. rewrite L1. apply Hl. now right.
    + exact Hshape.
    + rewrite O1 by lia. exact Hz.
    + exists g2. rewrite E2. split; [reflexivity |]. split; [lia | exact Z2].
Qed.

(** C8.  [singularity_avoidance] leaves the controller as it is.  When the
    test [scalar <= 0] holds it returns the zero n-vector and writes one
    diagnostic.  When the scalar is positive, on an arm with at least one
    joint whose Jacobian derivatives and pseudo-inverse have matching
    shapes, it returns an n-vector whose first component is exactly zero. *)
Theorem singularity_avoidance_first_component :
  forall (s : Control F) (scalar : F),
    (forall x : F, (s_zero <? x)%S = true -> (x <=? s_zero)%S = false) ->
    ((scalar <=? s_zero)%S = true ->
     exists d, singularity_avoidance scalar s = Ok (vzero (n s), s, [d]))
    /\ ((s_zero <? scalar)%S = true ->
        1 <= n s ->
        (forall i, cols (get_partial_derivative s (get_jacobian s) i)
                   = rows (get_pseudoinverse s (get_jacobian s))) ->
        exists grad,
          singularity_avoidance scalar s = Ok (grad, s, [])
          /\ length grad = n s
          /\ nth_error grad 0 = Some s_zero).
Proof.
  intros s scalar Hord. split.
  - intros Hneg. unfold singularity_avoidance, mbind, this, cerr, emit, mret.
    rewrite Hneg. eexists; reflexivity.
  - intros Hpos Hn Hshape.
    unfold singularity_avoidance. cbv zeta. unfold mbind at 1. unfold this at 1.
    cbv beta iota. rewrite (Hord _ Hpos).
    unfold mbind at 1.
    rewrite (mmul_Ok (get_jacobian s) (mtranspose (get_jacobian s)) eq_refl).
    unfold lift at 1. unfold mbind at 1.
    assert (Hlt : 0 < length (vzero (n s))) by (rewrite vzero_length; lia).
    destruct (vset_spec (vzero (n s)) s_zero Hlt) as (g0 & E0 & L0 & Z0 & _).
    rewrite E0. unfold lift at 1.
    match goal with
    | |- context [mfold (fun grad i => _ <~ _ ;; lift (vset grad i (_ * ?mu * _)%S))
                        ?l g0 s] =>
        destruct (@gradient_loop_keeps_first s (get_jacobian s)
                    (get_pseudoinverse s (get_jacobian s)) scalar mu l g0)
          as (g & E & L & Z)
    end.
    + intros i Hi. apply in_seq in Hi. rewrite L0, vzero_length. lia.
    + exact Hshape.
    + exact Z0.
    + exists g. rewrite E. simpl. rewrite L, L0, vzero_length. auto.
Qed.
End Singularity.

Module Binary32Facts.
Import Binary32.

Lemma f32_zero : @s_zero f32 _ = S754_zero false.
Proof. vm_compute. reflexivity. Qed.

(** In binary32 a positive number is not less than or equal to zero. *)
Lemma f32_positive_not_le (x : f32) :
  (s_zero <? x)%S = true -> (x <=? s_zero)%S = false.
Proof.
  rewrite f32_zero. unfold s_ltb, s_leb; simpl.
  destruct x as [s | s | | s m e]; try destruct s; simpl;
    intros E; try discriminate; reflexivity.
Qed.
End Binary32Facts.

Module SingularityRuns.
Import Binary32 Bench Binary32Facts.
#[local] Existing Instance base2.

Lemma singularity_avoidance_first_component_witness :
  (forall x : f32, (s_zero <? x)%S = true -> (x <=? s_zero)%S = false)
  /\ ((lit (-1) 1 <=? s_zero)%S = true
      /\ exists d, singularity_avoidance (lit (-1) 1) arm2 = Ok (vzero (n arm2), arm2, [d]))
  /\ (((s_zero <? lit 1 2)%S = true
       /\ 1 <= n arm2
       /\ (forall i, cols (get_partial_derivative arm2 (get_jacobian arm2) i)
                     = rows (get_pseudoinverse arm2 (get_jacobian arm2))))
      /\ exists grad,
          singularity_avoidance (lit 1 2) arm2 = Ok (grad, arm2, [])
          /\ length grad = n arm2
          /\ nth_error grad 0 = Some s_zero).
Proof.
  assert (Hneg : (lit (-1) 1 <=? s_zero)%S = true) by (vm_compute; reflexivity).
  assert (Hpos : (s_zero <? lit 1 2)%S = true) by (vm_compute; reflexivity).
  assert (Hn : 1 <= n arm2) by (simpl; lia).
  assert (Hshape : forall i, cols (get_partial_derivative arm2 (get_jacobian arm2) i)
                             = rows (get_pseudoinverse arm2 (get_jacobian arm2)))
    by (intros i; reflexivity).
  split; [exact f32_positive_not_le |].
  split.
  - split; [exact Hneg |].
    exact (proj1 (singularity_avoidance_first_component arm2 (lit (-1) 1)
                    f32_positive_not_le) Hneg).
  - split; [repeat split; assumption |].
    exact (proj2 (singularity_avoidance_first_component arm2 (lit 1 2)
                    f32_positive_not_le) Hpos Hn Hshape).
Defined.

(** On the two-joint arm the manipulability is 0 and so is the gradient. *)
Lemma singularity_avoidance_runs :
  singularity_avoidance (lit 1 2) arm2
  = Ok ([S754_zero false; S754_zero false], arm2, []).
Proof. vm_compute. reflexivity. Qed.
End SingularityRuns.

(** ** Joint-limit penalty *)

Section PenaltyBranches.
Context {F : Type} `{Scalar F} {KB : KinematicBase F}.
Local Open Scope scalar_scope.

(** In any arithmetic, [get_joint_penalty] returns exactly 1 when the test
    [dpdq*velocity > 0] fails and the quotient range^2/(4*upper*lower) when
    it holds, and leaves the controller as it is. *)
Lemma get_joint_penalty_as_coded (s : Control F) (i : nat) (lo hi : F) :
  nth_error (pLim s) i = Some (lo, hi) ->
  let q := get_joint_position s i in
  let range := hi - lo in
  let dpdq := range * range * (s_two * q - hi - lo)
              / (s_four * (hi - q) * (hi - q) * (q - lo) * (q - lo)) in
  get_joint_penalty i s
  = Ok (if s_zero <? dpdq * get_joint_velocity s i
        then range * range / (s_four * (hi - q) * (q - lo))
        else s_one, s, []).
Proof.
  intros Hlim q range dpdq.
  unfold get_joint_penalty, mbind, this. rewrite Hlim. simpl lift.
  cbv beta iota. cbn [fst snd]. fold q. fold range. fold dpdq.
  destruct (s_zero <? dpdq * get_joint_velocity s i); reflexivity.
Qed.
End PenaltyBranches.

Module JointPenalty.
Import Exact ExactFacts.
Local Open Scope R_scope.

(** The penalty function of Chan and Dubey is at least 1 strictly between
    the limits: (u+l)^2 >= 4*u*l. *)
Lemma penalty_at_least_one (lo hi q : R) :
  lo < q < hi ->
  1 <= (hi - lo) * (hi - lo) / (4 * (hi - q) * (q - lo)).
Proof.
  intros [Hl Hu].
  assert (Hpos : 0 < 4 * (hi - q) * (q - lo)).
  { apply Rmult_lt_0_compat; [apply Rmult_lt_0_compat |]; lra. }
  apply (Rmult_le_reg_r (4 * (hi - q) * (q - lo))); [exact Hpos |].
  replace ((hi - lo) * (hi - lo) / (4 * (hi - q) * (q - lo))
           * (4 * (hi - q) * (q - lo)))
    with ((hi - lo) * (hi - lo)) by (field; lra).
  pose proof (Rle_0_sqr ((hi - q) - (q - lo))) as Hsq. unfold Rsqr in Hsq.
  lra.
Qed.

Section Penalty.
Context {E : External R} {KB : KinematicBase R}.

(** C9 (amended), in exact arithmetic.  For a joint strictly between its
    position limits, with [dpdq] the gradient of the penalty function: when
    [dpdq] times the joint velocity is not positive, [get_joint_penalty]
    returns exactly 1; otherwise it returns range^2/(4*upper*lower), which
    is at least 1. *)
Theorem get_joint_penalty_bound :
  forall (s : Control R) (i : nat) (lo hi : R),
    nth_error (pLim s) i = Some (lo, hi) ->
    lo < get_joint_position s i < hi ->
    let q := get_joint_position s i in
    let range := hi - lo in
    let dpdq := range * range * (2 * q - hi - lo)
                / (4 * (hi - q) * (hi - q) * (q - lo) * (q - lo)) in
    let penalty := range * range / (4 * (hi - q) * (q - lo)) in
    (dpdq * get_joint_velocity s i <= 0 ->
     get_joint_penalty i s = Ok (1, s, []))
    /\ (0 < dpdq * get_joint_velocity s i ->
        get_joint_penalty i s = Ok (penalty, s, []) /\ 1 <= penalty).
Proof.
  intros s i lo hi Hlim Hq q range dpdq penalty.
  unfold get_joint_penalty, mbind, this. rewrite Hlim. simpl lift.
  cbv beta iota. cbn [fst snd s_add s_sub s_mul s_div s_ltb RScalar].
  rewrite R_zero, R_one, R_two, R_four.
  fold q. fold range. fold dpdq.
  split.
  - intros Hle. apply Rltb_false in Hle. rewrite Hle. reflexivity.
  - intros Hlt. pose proof Hlt as Hb. apply Rltb_true in Hb. rewrite Hb.
    split; [reflexivity |]. apply penalty_at_least_one. exact Hq.
Qed.
End Penalty.
End JointPenalty.

Module JointPenaltyRuns.
Import Exact ExactBench JointPenalty.
Local Open Scope R_scope.

Lemma get_joint_penalty_bound_witness :
  (nth_error (pLim arm_exact) 0 = Some (-1, 1)
   /\ -1 < get_joint_position arm_exact 0 < 1)
  /\ get_joint_penalty 0 arm_exact
     = Ok ((1 - -1) * (1 - -1)
           / (4 * (1 - get_joint_position arm_exact 0) * (get_joint_position arm_exact 0 - -1)),
           arm_exact, [])
  /\ 1 <= (1 - -1) * (1 - -1)
          / (4 * (1 - get_joint_position arm_exact 0) * (get_joint_position arm_exact 0 - -1)).
Proof.
  assert (Hlim : nth_error (pLim arm_exact) 0 = Some (-1, 1)) by reflexivity.
  assert (Hq : -1 < get_joint_position arm_exact 0 < 1) by (simpl; lra).
  split; [split; assumption |].
  apply (proj2 (get_joint_penalty_bound arm_exact 0 Hlim Hq)).
  simpl.
  apply Rmult_lt_0_compat; [| lra].
  apply Rdiv_lt_0_compat; lra.
Defined.
End JointPenaltyRuns.

Module JointPenaltyRounding.
Import Binary32 Bench.

(** C9 (counterexample).  In binary32, for the joint at 0.3500001 between
    the limits 0.1 and 0.6 and moving at velocity 1 towards the upper limit,
    the difference of the limits rounds to range = 0.5, while
    upper = 0.25 - 6*2^-26 and lower = 0.25 + 8*2^-26 add up to more than
    0.5.  So range^2 = 0.25 is below 4*upper*lower = 0.25 + 2^-25; the
    product of the gradient and the velocity is positive and the penalty
    returned is 16777214 * 2^-24 = 1 - 2^-23, below 1. *)
Lemma penalty_rounds_below_one :
  nth_error (pLim arm_mid) 0 = Some (lit 1 10, lit 6 10)
  /\ s_ltb (lit 1 10) (get_joint_position arm_mid 0) = true
  /\ s_ltb (get_joint_position arm_mid 0) (lit 6 10) = true
  /\ get_joint_velocity arm_mid 0 = lit 1 1
  /\ s_sub (lit 6 10) (lit 1 10) = lit 1 2
  /\ s_sub (lit 6 10) (get_joint_position arm_mid 0)
     = S754_finite false 16777210 (-26)
  /\ s_sub (get_joint_position arm_mid 0) (lit 1 10)
     = S754_finite false 8388612 (-25)
  /\ s_mul (s_mul s_four (S754_finite false 16777210 (-26)))
           (S754_finite false 8388612 (-25))
     = S754_finite false 8388609 (-25)
  /\ get_joint_penalty 0 arm_mid
     = Ok (S754_finite false 16777214 (-24), arm_mid, [])
  /\ s_leb s_one (S754_finite false 16777214 (-24)) = false.
Proof. repeat split; vm_compute; reflexivity. Qed.
End JointPenaltyRounding.

(** ** The pass over the constraints *)

Section ConstraintPass.
Context {F : Type} `{External F}.

Lemma of_option_Ok_inv {A : Type} (o : option A) (a : A) :
  of_option o = Ok a -> o = Some a.
Proof. destruct o; simpl; intros E; [injection E as -> | discriminate]; reflexivity. Qed.

Lemma vset_middle (pre rest : list F) (b a : F) :
  vset (pre ++ b :: rest) (length pre) a = Ok (pre ++ a :: rest).
Proof.
  induction pre as [| e pre IH]; simpl; [reflexivity |].
  rewrite IH. reflexivity.
Qed.

(** What one step of the pass does, read off a successful run. *)
Lemma slack_step_inv (cfg : QPSolver F) (bt : list (Vec F)) (btb : list (Mat F))
      (c x : Vec F) (s s' : pass_state) (j : nat) :
  slack_step cfg bt btb c x s j = Ok s' ->
  exists r btj btbj,
    slack bt c x j = Ok r
    /\ nth_error bt j = Some btj
    /\ nth_error btb j = Some btbj
    /\ ps_violation s' = (negative r || ps_violation s)
    /\ ps_u s' = raised cfg (ps_u s) r
    /\ vset (ps_d s) j (floored r) = Ok (ps_d s')
    /\ vadd (ps_g s) (vscale (- (ps_u s' / floored r))%S btj) = Ok (ps_g s')
    /\ madd (ps_I s) (mscale (ps_u s' / (floored r * floored r))%S btbj)
       = Ok (ps_I s').
Proof.
  unfold slack_step. intros E.
  apply obind_Ok_inv in E. destruct E as (btj & Ebt & E).
  apply obind_Ok_inv in E. destruct E as (btbj & Ebtb & E).
  apply obind_Ok_inv in E. destruct E as (p & Ep & E).
  apply obind_Ok_inv in E. destruct E as (cj & Ec & E).
  exists (p - cj)%S, btj, btbj.
  unfold slack. rewrite Ebt. simpl obind. rewrite Ep. simpl obind.
  rewrite Ec. simpl obind.
  apply of_option_Ok_inv in Ebt. apply of_option_Ok_inv in Ebtb.
  unfold raised, floored, negative.
  destruct ((p - cj <? s_zero)%S) eqn:Eneg;
    apply obind_Ok_inv in E; destruct E as (d' & Ed & E);
    apply obind_Ok_inv in E; destruct E as (g' & Eg & E);
    apply obind_Ok_inv in E; destruct E as (I' & EI & E);
    injection E as <-; simpl; repeat split; assumption.
Qed.

(** The pass over the constraints [a, a+k), read off a successful run: the
    slacks exist, [d] receives their floored values, [u] is raised once for
    each negative slack, and the flag records whether there was one. *)
Lemma pass_inv (cfg : QPSolver F) (bt : list (Vec F)) (btb : list (Mat F))
      (c x : Vec F) (k : nat) :
  forall (a : nat) (s s' : pass_state) (pre rest : list F),
    ps_d s = pre ++ rest ->
    length pre = a ->
    length rest = k ->
    ofold (slack_step cfg bt btb c x) (seq a k) s = Ok s' ->
    exists rs,
      slacks bt c x (seq a k) = Ok rs
      /\ ps_d s' = pre ++ map floored rs
      /\ ps_u s' = fold_left (raised cfg) rs (ps_u s)
      /\ ps_violation s' = (existsb negative rs || ps_violation s).
Proof.
  induction k as [| k IH]; intros a s s' pre rest Hd Hpre Hrest E.
  - simpl in E. injection E as <-. exists []. simpl.
    destruct rest; [| discriminate]. repeat split. exact Hd.
  - simpl in E. apply obind_Ok_inv in E. destruct E as (s1 & E1 & E).
    apply slack_step_inv in E1.
    destruct E1 as (r & btj & btbj & Er & _ & _ & Ev & Eu & Ed & _ & _).
    destruct rest as [| b rest]; [discriminate |].
    rewrite Hd, <- Hpre, vset_middle in Ed. injection Ed as Ed.
    destruct (IH (S a) s1 s' (pre ++ [floored r]) rest) as (rs & Ers & Hd' & Hu' & Hv').
    + rewrite <- Ed, <- app_assoc. reflexivity.
    + rewrite length_app. simpl. lia.
    + simpl in Hrest. lia.
    + exact E.
    + exists (r :: rs). simpl. rewrite Er, Ers. simpl.
      repeat split.
      * rewrite Hd', <- app_assoc. reflexivity.
      * rewrite Hu', Eu. reflexivity.
      * rewrite Hv', Ev. destruct (negative r), (existsb negative rs); reflexivity.
Qed.





End ConstraintPass.

Module ViolationRuns.
Import Binary32 Bench.


(** The same iteration, computed: the slack -1 is replaced by 0.01, the
    barrier weight 100 becomes 1000, the gradient receives -(1000/0.01),
    [x] goes back to 2 and [beta] moves from 0.01 to 0.01 + 0.1*(1.0 - 0.01),
    which is 14629733 * 2^-27 when the sum is rounded once from double. *)
Lemma newton_step_violation_runs :
  slack [[lit 1 1]] [lit 1 1] [lit 0 1] 0 = Ok (lit (-1) 1)
  /\ match newton_step 200 cfg (mat1 (lit 1 1)) [lit 0 1] [[lit 1 1]]
                       [vouter [lit 1 1]] [lit 1 1] 1 1 [lit 0 1]
                       (mkIpm [lit 0 1] [lit 2 1] (beta0 cfg) (u0 cfg))
     with
     | Ok (x, beta, p, _, _) =>
         Some (x, beta, ps_d p, ps_u p, ps_g p, ps_violation p)
     | _ => None
     end
     = Some ([lit 2 1], S754_finite false 14629733 (-27),
             [lit 1 100], lit 1000 1,
             [s_opp (s_div (lit 1000 1) (lit 1 100))], true)
  /\ slowed cfg (lit 1 100) = S754_finite false 14629733 (-27).
Proof. repeat split; vm_compute; reflexivity. Qed.
End ViolationRuns.

(** ** Termination of the interior-point loop *)

Section Termination.
Context {F : Type} `{External F}.

Variable cfg : QPSolver F.
Variable Hm : Mat F.
Variable f : Vec F.
Variable B : Mat F.
Variable c : Vec F.
Variable n : nat.

Let m : nat := rows B.
Let bt : list (Vec F) := map (mrow B) (seq 0 (rows B)).
Let btb : list (Mat F) := map vouter bt.

Hypothesis H_rows : rows Hm = n.
Hypothesis H_cols : cols Hm = n.
Hypothesis f_size : length f = n.
Hypothesis B_cols : cols B = n.
Hypothesis c_size : length c = rows B.

(** Eigen's LU solver returns a vector of the size of the system. *)
Hypothesis lu_size :
  forall (A : Mat F) (v : Vec F),
    rows A = n -> cols A = n -> length v = n ->
    exists x, partialPivLu_solve A v = Ok x /\ length x = n.

(** The floor [1E-02] is not negative. *)
Hypothesis floor_not_negative : negative (s_1em2 : F) = false.

(** After [K] reductions the step size no longer moves a slack that is not
    negative below zero, and the line search has fuel for [K] reductions. *)
Variable K : nat.
Variable fuel : nat.
Hypothesis enough_fuel : K < fuel.
Hypothesis step_bottoms_out :
  forall d s : F, negative d = false ->
                  negative (d + shrunk cfg K * s)%S = false.

Lemma bt_nth (j : nat) : j < m -> nth_error bt j = Some (mrow B j).
Proof.
  intros Hj. unfold bt. rewrite nth_error_map, nth_error_seq.
  fold m. rewrite (proj2 (Nat.ltb_lt _ _) Hj). reflexivity.
Qed.

Lemma btb_nth (j : nat) : j < m -> nth_error btb j = Some (vouter (mrow B j)).
Proof.
  intros Hj. unfold btb. rewrite nth_error_map, (bt_nth Hj). reflexivity.
Qed.

Lemma nth_error_lt {A : Type} (l : list A) (j : nat) :
  j < length l -> exists a, nth_error l j = Some a.
Proof.
  intros Hj. destruct (nth_error l j) eqn:E; [eexists; reflexivity |].
  apply nth_error_None in E. lia.
Qed.

Lemma slack_step_total (x : Vec F) (s : @pass_state F) (j : nat) :
  length x = n -> shaped n m s -> j < m ->
  exists s', slack_step cfg bt btb c x s j = Ok s' /\ shaped n m s'.
Proof.
  intros Hx (Hg & Hr & Hc & Hd) Hj.
  unfold slack_step. rewrite (bt_nth Hj), (btb_nth Hj). simpl.
  unfold vdot. rewrite mrow_length, B_cols, Hx, Nat.eqb_refl. simpl.
  destruct (@nth_error_lt F c j) as (cj & Ecj); [fold m in Hj; unfold m in Hj; lia |].
  unfold vget. rewrite Ecj. simpl.
  set (r := (dot_from s_zero (mrow B j) x - cj)%S).
  assert (Hset : forall a, exists d', vset (ps_d s) j a = Ok d' /\ length d' = m).
  { intros a. destruct (@vset_spec F (ps_d s) j a) as (d' & E & L & _); [lia |].
    exists d'. split; [exact E | lia]. }
  assert (Hacc : forall (u dj : F) (viol : bool) (d' : list F),
             length d' = m ->
             exists s',
               (g' <- vadd (ps_g s) (vscale (- (u / dj))%S (mrow B j)) ;;
                I' <- madd (ps_I s) (mscale (u / (dj * dj))%S (vouter (mrow B j))) ;;
                Ok (mkPass viol u d' g' I')) = Ok s' /\ shaped n m s').
  { intros u dj viol d' Ld.
    destruct (@vadd_Ok F _ (ps_g s) (vscale (- (u / dj))%S (mrow B j)))
      as (g' & Eg & Lg).
    { rewrite vscale_length, mrow_length. lia. }
    rewrite Eg. simpl. unfold madd, same_dims. simpl.
    rewrite mrow_length, Hr, Hc, B_cols, Nat.eqb_refl. simpl.
    eexists. split; [reflexivity |].
    unfold shaped. simpl. repeat split; lia. }
  destruct ((r <? s_zero)%S).
  - destruct (Hset s_1em2) as (d' & Ed & Ld). rewrite Ed. simpl.
    apply Hacc. exact Ld.
  - destruct (Hset r) as (d' & Ed & Ld). rewrite Ed. simpl.
    apply Hacc. exact Ld.
Qed.

Lemma pass_total (x : Vec F) (l : list nat) :
  forall s : @pass_state F,
    length x = n -> shaped n m s -> (forall j, In j l -> j < m) ->
    exists s', ofold (slack_step cfg bt btb c x) l s = Ok s' /\ shaped n m s'.
Proof.
  induction l as [| j l IH]; intros s Hx Hs Hl.
  - exists s. split; [reflexivity | exact Hs].
  - destruct (@slack_step_total x s j Hx Hs) as (s1 & E1 & Hs1).
    { apply Hl. now left. }
    destruct (IH s1 Hx Hs1) as (s' & E' & Hs').
    { intros j' Hj'. apply Hl. now right. }
    exists s'. simpl. rewrite E1. simpl. split; assumption.
Qed.

Lemma floored_not_negative (r : F) : negative (floored r) = false.
Proof.
  unfold floored. destruct (negative r) eqn:E; [exact floor_not_negative | exact E].
Qed.

Lemma shrunk_S (k : nat) : shrunk cfg (S k) = (shrunk cfg k * alphaMod cfg)%S.
Proof. reflexivity. Qed.

Lemma shrink_total (dj s : F) :
  negative dj = false ->
  forall (fl k : nat),
    k <= K -> K - k < fl ->
    exists k', k <= k' <= K /\ shrink fl cfg dj s (shrunk cfg k) = Ok (shrunk cfg k').
Proof.
  intros Hdj. induction fl as [| fl IH]; intros k Hk Hfl; [lia |].
  simpl. destruct ((dj + shrunk cfg k * s <? s_zero)%S) eqn:E.
  - assert (Hlt : k < K).
    { destruct (Nat.eq_dec k K) as [-> | Hne]; [| lia].
      pose proof (step_bottoms_out dj s Hdj) as Hb. unfold negative in Hb.
      rewrite Hb in E. discriminate. }
    rewrite <- shrunk_S.
    destruct (IH (S k)) as (k' & Hk' & E'); [lia | lia |].
    exists k'. split; [lia | exact E'].
  - exists k. split; [lia | reflexivity].
Qed.

Lemma search_total (d : list F) (dx : Vec F) (l : list nat) :
  length d = m -> length dx = n ->
  Forall (fun dj => negative dj = false) d ->
  (forall j, In j l -> j < m) ->
  forall k, k <= K ->
    exists k', k <= k' <= K
               /\ ofold (search_step fuel cfg bt d dx) l (shrunk cfg k)
                  = Ok (shrunk cfg k').
Proof.
  intros Ld Ldx Hd. induction l as [| j l IH]; intros Hl k Hk.
  - exists k. split; [lia | reflexivity].
  - assert (Hj : j < m) by (apply Hl; now left).
    destruct (@nth_error_lt F d j) as (dj & Edj); [lia |].
    assert (Hdj : negative dj = false).
    { rewrite Forall_forall in Hd. apply Hd. eapply nth_error_In. exact Edj. }
    destruct (@shrink_total dj (dot_from s_zero (mrow B j) dx) Hdj fuel k Hk)
      as (k1 & Hk1 & E1); [lia |].
    destruct (IH (fun j' Hj' => Hl j' (or_intror Hj')) k1) as (k' & Hk' & E');
      [lia |].
    exists k'. split; [lia |].
    simpl. unfold search_step at 1. rewrite (bt_nth Hj), Edj. simpl.
    unfold vdot. rewrite mrow_length, B_cols, Ldx, Nat.eqb_refl. simpl.
    rewrite E1. simpl. exact E'.
Qed.

(** Lines 96-132 of an iteration always produce a step. *)
Lemma newton_step_total (d : list F) (st : ipm_state) :
  length d = m -> length (ip_x st) = n -> length (ip_x_prev st) = n ->
  exists x beta p dx alpha,
    newton_step fuel cfg Hm f bt btb c m n d st = Ok (x, beta, p, dx, alpha)
    /\ length x = n /\ length dx = n /\ length (ps_d p) = m.
Proof.
  intros Ld Lx Lp. unfold newton_step.
  destruct (@pass_total (ip_x st) (seq 0 m)
              (mkPass false (ip_u st) d (vzero n) Hm) Lx)
    as (p & Ep & (Hg & Hr & Hc & Hd)).
  { unfold shaped. simpl. rewrite vzero_length. repeat split; assumption. }
  { intros j Hj. apply in_seq in Hj. lia. }
  rewrite Ep. simpl obind.
  pose proof Ep as P.
  eapply pass_inv with (pre := []) (rest := d) in P;
    [| reflexivity | reflexivity | exact Ld].
  destruct P as (rs & _ & Hd' & _ & _). simpl in Hd'.
  assert (Hnn : Forall (fun dj => negative dj = false) (ps_d p)).
  { rewrite Hd'. apply Forall_forall. intros dj Hin.
    apply in_map_iff in Hin. destruct Hin as (r & <- & _).
    apply floored_not_negative. }
  set (xb := if ps_violation p
             then (ip_x_prev st, slowed cfg (ip_beta st))
             else (ip_x st, ip_beta st)).
  assert (Lxb : length (fst xb) = n) by (unfold xb; destruct (ps_violation p); assumption).
  destruct xb as [x beta]. simpl in Lxb.
  destruct (@mvmul_Ok F _ Hm x) as (Hx & EHx & LHx); [lia |].
  rewrite EHx. simpl obind.
  destruct (@vsub_Ok F _ Hx f) as (r & Er & Lr); [lia |].
  rewrite Er. simpl obind.
  destruct (@vadd_Ok F _ (ps_g p) r) as (g & Eg & Lg); [lia |].
  rewrite Eg. simpl obind.
  destruct (lu_size (ps_I p) (vneg g)) as (dx & Edx & Ldx);
    [exact Hr | exact Hc | rewrite vneg_length; lia |].
  rewrite Edx. simpl obind.
  destruct (@search_total (ps_d p) dx (seq 0 m) Hd Ldx Hnn) with (k := 0)
    as (k' & _ & Es); [intros j Hj; apply in_seq in Hj; lia | lia |].
  change (shrunk cfg 0) with (alpha0 cfg) in Es.
  rewrite Es. simpl obind.
  exists x, beta, p, dx, (shrunk cfg k').
  repeat split; assumption.
Qed.

(** The loop returns, and ends as the specification says. *)
Lemma interior_point_loop_total (count : nat) :
  forall (d : list F) (st : ipm_state),
    length d = m -> length (ip_x st) = n -> length (ip_x_prev st) = n ->
    exists x,
      interior_point_loop count fuel cfg Hm f bt btb c m n d st = Ok x
      /\ exits fuel cfg Hm f bt btb c m n count d st x.
Proof.
  induction count as [| count IH]; intros d st Ld Lx Lp.
  - exists (ip_x st). split; [reflexivity | constructor].
  - destruct (@newton_step_total d st Ld Lx Lp)
      as (x & beta & p & dx & alpha & E & Lx' & Ldx & Ld').
    simpl. unfold iteration. rewrite E. simpl obind.
    destruct ((alpha * vnorm dx <? tol cfg)%S) eqn:Etol.
    + exists x. split; [reflexivity |].
      eapply exits_tolerance; eassumption.
    + destruct (@vadd_Ok F _ x (vscale alpha dx)) as (x' & Ex' & Lx'').
      { rewrite vscale_length. lia. }
      rewrite Ex'. simpl obind.
      destruct (IH (ps_d p) (mkIpm x' x beta (ps_u p * beta)%S))
        as (xr & Er & Hex); simpl; try lia.
      exists xr. split; [exact Er |].
      eapply exits_step; eassumption.
Qed.

(** C6.  For a solve with well-sized inputs the interior-point loop
    terminates: it returns the current [x], without a diagnostic and
    without a fault, at the first iteration whose step [alpha*|dx|] is below
    the tolerance, or after [steps] iterations. *)
Theorem solve_constrained_terminates :
  forall x0 : Vec F,
    length x0 = n ->
    exists x,
      solve_constrained fuel Hm f B c x0 cfg = Ok (x, cfg, [])
      /\ exits fuel cfg Hm f bt btb c m n (Z.to_nat (steps cfg))
               (repeat s_zero m) (mkIpm x0 x0 (beta0 cfg) (u0 cfg)) x.
Proof.
  intros x0 Lx0.
  destruct (@interior_point_loop_total (Z.to_nat (steps cfg)) (repeat s_zero m)
              (mkIpm x0 x0 (beta0 cfg) (u0 cfg)))
    as (x & E & Hex); simpl; try assumption.
  { apply repeat_length. }
  exists x. split; [| exact Hex].
  unfold solve_constrained.
  rewrite H_rows, H_cols, f_size, c_size, Lx0, !Nat.eqb_refl. simpl.
  unfold mbind, this, lift.
  change (interior_point fuel cfg Hm f B c x0)
    with (interior_point_loop (Z.to_nat (steps cfg)) fuel cfg Hm f bt btb c m
            (length x0) (repeat s_zero m)
            (mkIpm x0 x0 (beta0 cfg) (u0 cfg))).
  rewrite Lx0, E. reflexivity.
Qed.
End Termination.

Module TerminationRuns.
Import Binary32 Bench Binary32Facts.

(** Halving the step size 150 times from 1 underflows to zero. *)
Lemma step_underflows : shrunk cfg 150 = S754_zero false.
Proof. vm_compute. reflexivity. Qed.

(** A zero step leaves a slack that is not negative where it is. *)
Lemma zero_step_keeps_slack (d s : f32) :
  negative d = false ->
  negative (d + S754_zero false * s)%S = false.
Proof.
  unfold negative. rewrite f32_zero. unfold s_ltb, s_add, s_mul; simpl.
  destruct s as [ss | ss | | ss ms es]; simpl;
    destruct d as [sd | sd | | sd md ed]; simpl;
    try destruct sd; try destruct ss; simpl; intros E;
    try reflexivity; try exact E.
Qed.

Lemma lu_1x1_size (A : Mat f32) (v : Vec f32) :
  rows A = 1 -> cols A = 1 -> length v = 1 ->
  exists x, partialPivLu_solve A v = Ok x /\ length x = 1.
Proof.
  intros Hr Hc Hv. simpl. unfold lu_1x1. rewrite Hr, Hc.
  destruct v as [| b [| b' v]]; simpl in Hv; try discriminate.
  eexists. split; reflexivity.
Qed.

Lemma solve_constrained_terminates_witness :
  exists x,
    solve_constrained 200 (mat1 (lit 1 1)) [lit 0 1] (mat1 (lit 1 1))
                      [lit 1 1] [lit 2 1] cfg
    = Ok (x, cfg, [])
    /\ exits 200 cfg (mat1 (lit 1 1)) [lit 0 1]
             (map (mrow (mat1 (lit 1 1))) (seq 0 1))
             (map vouter (map (mrow (mat1 (lit 1 1))) (seq 0 1)))
             [lit 1 1] 1 1 (Z.to_nat (steps cfg)) (repeat s_zero 1)
             (mkIpm [lit 2 1] [lit 2 1] (beta0 cfg) (u0 cfg)) x.
Proof.
  assert (Hfloor : negative (s_1em2 : f32) = false) by (vm_compute; reflexivity).
  assert (Hfuel : 150 < 200) by lia.
  assert (Hstep : forall d s : f32,
             negative d = false -> negative (d + shrunk cfg 150 * s)%S = false).
  { intros d s Hd. rewrite step_underflows. apply zero_step_keeps_slack. exact Hd. }
  exact (@solve_constrained_terminates f32 _ _ cfg (mat1 (lit 1 1)) [lit 0 1]
           (mat1 (lit 1 1)) [lit 1 1] 1 eq_refl eq_refl eq_refl eq_refl eq_refl
           lu_1x1_size Hfloor 150 200 Hfuel Hstep [lit 2 1] eq_refl).
Defined.

(** The solve of the witness, computed: from [x0 = 2] under [x >= 1] the
    loop stops at 8489165 * 2^-23, about 1.012. *)
Lemma solve_constrained_runs :
  solve_constrained 200 (mat1 (lit 1 1)) [lit 0 1] (mat1 (lit 1 1))
                    [lit 1 1] [lit 2 1] cfg
  = Ok ([S754_finite false 8489165 (-23)], cfg, []).
Proof. vm_compute. reflexivity. Qed.
End TerminationRuns.

(** ** The line search, in exact arithmetic *)

Module ExactSolve.
Import Exact ExactFacts.
Local Open Scope R_scope.

Section Feasible.
Context {E : External R}.
Variable cfg : QPSolver R.
Hypothesis alpha0_nonneg : 0 <= alpha0 cfg.
Hypothesis alphaMod_range : 0 <= alphaMod cfg <= 1.



End Feasible.
End ExactSolve.

(** ** Reading a successful run of a method *)

Section MethodFacts.
Context {S A B : Type}.

Lemma mbind_Ok_inv (m : M S A) (k : A -> M S B) (s s'' : S) (b : B)
      (l : list diagnostic) :
  mbind m k s = Ok (b, s'', l) ->
  exists a s' l1 l2,
    m s = Ok (a, s', l1) /\ k a s' = Ok (b, s'', l2) /\ l = l1 ++ l2.
Proof.
  unfold mbind. destruct (m s) as [[[a s'] l1] | |]; try discriminate.
  destruct (k a s') as [[[b' s3] l2] | |] eqn:Ek; try discriminate.
  intros E. injection E as <- <- <-.
  exists a, s', l1, l2. split; [reflexivity |]. split; [exact Ek | reflexivity].
Qed.

Lemma lift_Ok_inv (o : outcome A) (s s' : S) (a : A) (l : list diagnostic) :
  lift o s = Ok (a, s', l) -> o = Ok a /\ s' = s /\ l = [].
Proof.
  unfold lift. destruct o; try discriminate.
  intros E. injection E as <- <- <-. repeat split.
Qed.
End MethodFacts.

Module ExactRuns.
Import Exact ExactFacts ExactBench.
Local Open Scope R_scope.

Ltac run := cbn -[Rltb Rplus Rminus Rmult Rdiv Ropp sqrt Rabs IZR].
End ExactRuns.

Module FeasibilityRuns.
Import Binary32 Bench.

(** A start outside the box is not brought back into it.  The box is [1,2]
    and the start [x0 = 0] lies outside it.  The first iteration finds the
    slack of [x >= 1] negative, gives it the floor 0.01 and computes a step
    of about 0.009995; that is
    below the tolerance 0.01, the loop stops, and the solve returns [x = 0],
    which is below [xMin = 1].  The same holds for the constrained solve
    with [B = (1)], [c = (1)]: it returns [x = 0] with [B*x = 0 < 1]. *)
Lemma infeasible_start_is_returned :
  s_leb (lit 1 1) (lit 2 1) = true
  /\ least_squares_box 200 [lit 0 1] (mat1 (lit 1 1)) (mat1 (lit 1 1))
                       [lit 1 1] [lit 2 1] [lit 0 1] cfg
     = Ok ([S754_zero false], cfg, [])
  /\ s_leb (lit 1 1) (S754_zero false) = false
  /\ solve_constrained 200 (mat1 (lit 1 1)) [lit 0 1] (mat1 (lit 1 1))
                       [lit 1 1] [lit 0 1] cfg
     = Ok ([S754_zero false], cfg, [])
  /\ vdot (mrow (mat1 (lit 1 1)) 0) [S754_zero false] = Ok (S754_zero false).
Proof. repeat split; vm_compute; reflexivity. Qed.

(** C2 (the code at a failing input).  The box is [-1,1], the start
    [x0 = 0] is its midpoint and the problem is [min (201 - x)^2]; the
    constraints are [-x >= -1] and [x >= -1].  The first iteration finds
    both slacks equal to 1 and the Newton step [dx = 201/201 = 1], and the
    line search accepts the full step, because [1 + 1*(-1) = 0] is not
    negative: [x = 1] lands on [xMax].  The second pass finds the slack 0 of
    the first constraint, which is not negative either, and divides by it:
    [u/0] is infinite, so is the gradient, and the step is NaN.  The solve
    returns NaN, which is not within [-1,1]. *)
Lemma least_squares_box_returns_nan :
  (s_leb (lit (-1) 1) (lit 0 1) && s_leb (lit 0 1) (lit 1 1)) = true
  /\ match newton_step 200 cfg (mat1 (lit 1 1)) [lit 201 1]
                       [[lit (-1) 1]; [lit 1 1]]
                       [vouter [lit (-1) 1]; vouter [lit 1 1]]
                       [lit (-1) 1; lit (-1) 1] 2 1 [lit 0 1; lit 0 1]
                       (mkIpm [lit 0 1] [lit 0 1] (beta0 cfg) (u0 cfg))
     with
     | Ok (x, _, p, dx, alpha) => Some (x, ps_d p, ps_violation p, dx, alpha)
     | _ => None
     end
     = Some ([lit 0 1], [lit 1 1; lit 1 1], false, [lit 1 1], lit 1 1)
  /\ s_ltb (s_add (lit 1 1) (s_mul (lit 1 1) (lit (-1) 1))) s_zero = false
  /\ vadd [lit 0 1] (vscale (lit 1 1) [lit 1 1]) = Ok [lit 1 1]
  /\ match newton_step 200 cfg (mat1 (lit 1 1)) [lit 201 1]
                       [[lit (-1) 1]; [lit 1 1]]
                       [vouter [lit (-1) 1]; vouter [lit 1 1]]
                       [lit (-1) 1; lit (-1) 1] 2 1 [lit 1 1; lit 1 1]
                       (mkIpm [lit 1 1] [lit 0 1] (beta0 cfg)
                              (s_mul (u0 cfg) (beta0 cfg)))
     with
     | Ok (x, _, p, dx, alpha) =>
         Some (x, ps_d p, ps_violation p, ps_g p, dx, alpha)
     | _ => None
     end
     = Some ([lit 1 1], [S754_zero false; lit 2 1], false,
             [S754_infinity false], [S754_nan], lit 1 1)
  /\ solve_constrained 200 (mat1 (lit 1 1)) [lit 201 1]
                       (mat_of_rows 2 1 [[lit (-1) 1]; [lit 1 1]])
                       [lit (-1) 1; lit (-1) 1] [lit 0 1] cfg
     = Ok ([S754_nan], cfg, [])
  /\ least_squares_box 200 [lit 201 1] (mat1 (lit 1 1)) (mat1 (lit 1 1))
                       [lit (-1) 1] [lit 1 1] [lit 0 1] cfg
     = Ok ([S754_nan], cfg, [])
  /\ s_leb (lit (-1) 1) S754_nan = false
  /\ s_leb S754_nan (lit 1 1) = false.
Proof. repeat split; vm_compute; reflexivity. Qed.
End FeasibilityRuns.

(** ** The direction of the adjustments, in exact arithmetic *)

Module ExactBarrier.
Import Exact ExactFacts.
Local Open Scope R_scope.

(** With [0 < betaMod <= 1] the update of line 120 moves [beta] towards 1:
    the distance to 1 is multiplied by [1 - betaMod]. *)
Lemma beta_moves_towards_one (cfg : QPSolver R) (beta : R) :
  0 < betaMod cfg <= 1 ->
  1 - slowed cfg beta = (1 - betaMod cfg) * (1 - beta)
  /\ Rabs (1 - slowed cfg beta) <= Rabs (1 - beta).
Proof.
  intros Hb.
  assert (E : 1 - slowed cfg beta = (1 - betaMod cfg) * (1 - beta)).
  { unfold slowed, w_one. simpl. field. }
  split; [exact E |].
  rewrite E, Rabs_mult, (Rabs_pos_eq (1 - betaMod cfg)) by lra.
  pose proof (Rabs_pos (1 - beta)). nra.
Qed.

(** With [uMod > 1] a negative slack increases a positive barrier weight. *)
Lemma raised_increases (cfg : QPSolver R) (u r : R) :
  1 < uMod cfg -> 0 < u -> negative r = true -> u < raised cfg u r.
Proof.
  intros Hm Hu Hr. unfold raised. rewrite Hr. simpl. nra.
Qed.
End ExactBarrier.

(** * Further properties of the solver and of the control law *)

(** ** Loops of methods that leave the object as it is *)

Section LoopFacts.
Context {S A B : Type}.

(** A loop whose body neither changes the object nor writes a diagnostic
    establishes, for the indices in order, what its body establishes. *)
Lemma mfold_rule (body : B -> A -> M S B) (s : S) (Inv : list A -> B -> Prop) :
  forall (l done : list A) (b : B),
    Inv done b ->
    (forall pre i post b1,
        l = pre ++ i :: post -> Inv (done ++ pre) b1 ->
        exists b2, body b1 i s = Ok (b2, s, []) /\ Inv (done ++ pre ++ [i]) b2) ->
    exists b', mfold body l b s = Ok (b', s, []) /\ Inv (done ++ l) b'.
Proof.
  induction l as [| i l IH]; intros done b Hb Hstep.
  - exists b. split; [reflexivity |]. rewrite app_nil_r. exact Hb.
  - destruct (Hstep [] i l b eq_refl) as (b2 & E2 & H2).
    { rewrite app_nil_r. exact Hb. }
    simpl in H2.
    destruct (IH (done ++ [i]) b2 H2) as (b' & E' & H').
    { intros pre j post b1 El Hb1.
      destruct (Hstep (i :: pre) j post b1) as (b3 & E3 & H3).
      - rewrite El. reflexivity.
      - rewrite <- app_assoc in Hb1. exact Hb1.
      - exists b3. split; [exact E3 |].
        rewrite <- app_assoc. exact H3. }
    exists b'. split.
    + simpl. unfold mbind. rewrite E2, E'. reflexivity.
    + rewrite <- app_assoc in H'. exact H'.
Qed.
End LoopFacts.

Section SpeedLimitFacts.
Context {F : Type} `{External F} {KB : KinematicBase F}.
Local Open Scope scalar_scope.

Lemma sized_entry (s : Control F) (i : nat) :
  sized s -> i < n s -> exists lim qi vl al, joint_entry s i lim qi vl al.
Proof.
  intros (L1 & L2 & L3 & L4) Hi.
  destruct (nth_error (pLim s) i) as [lim |] eqn:E1;
    [| apply nth_error_None in E1; lia].
  destruct (nth_error (q s) i) as [qi |] eqn:E2;
    [| apply nth_error_None in E2; lia].
  destruct (nth_error (vLim s) i) as [vl |] eqn:E3;
    [| apply nth_error_None in E3; lia].
  destruct (nth_error (aLim s) i) as [al |] eqn:E4;
    [| apply nth_error_None in E4; lia].
  exists lim, qi, vl, al. repeat split; assumption.
Qed.

(** [get_speed_limit] on a joint that has its entries: the two bounds, the
    object unchanged, no diagnostic. *)
Lemma get_speed_limit_run (s : Control F) (i : nat) (lim : F * F) (qi vl al : F) :
  joint_entry s i lim qi vl al ->
  get_speed_limit i s
  = Ok ((s_max ((fst lim - qi) / dt s)
               (s_max (- vl) (s_lit (-2) 1 * s_sqrt (al * (qi - fst lim)))),
         s_min ((snd lim - qi) / dt s)
               (s_min vl (s_two * s_sqrt (al * (snd lim - qi))))),
        s, []).
Proof.
  intros (E1 & E2 & E3 & E4).
  unfold get_speed_limit, mbind, this, lift, vget, mret.
  rewrite E1, E2, E3, E4. reflexivity.
Qed.
End SpeedLimitFacts.

Section QuietSteps.
Context {S A B : Type}.

(** A step that leaves the object as it is and writes nothing hands its
    result to the rest of the method. *)
Lemma mbind_quiet (m : M S A) (k : A -> M S B) (s : S) (a : A) :
  m s = Ok (a, s, []) -> mbind m k s = k a s.
Proof.
  intros E. unfold mbind. rewrite E.
  destruct (k a s) as [[[b s'] l] | |]; reflexivity.
Qed.

End QuietSteps.

Lemma mbind_this {S B : Type} (k : S -> M S B) (s : S) : mbind this k s = k s s.
Proof. apply mbind_quiet. reflexivity. Qed.

Lemma mbind_lift {S A B : Type} (o : outcome A) (k : A -> M S B) (s : S) (a : A) :
  o = Ok a -> mbind (lift o) k s = k a s.
Proof. intros ->. apply mbind_quiet. reflexivity. Qed.

Section FillFacts.
Context {F : Type} `{Scalar F} {S : Type}.

(** A loop that assigns one coefficient per index. *)
Lemma mfold_fill (body : Vec F -> nat -> M S (Vec F)) (s : S) (N : nat)
      (P : nat -> F -> Prop) :
  (forall v i, i < N -> length v = N ->
     exists a v', body v i s = Ok (v', s, []) /\ vset v i a = Ok v' /\ P i a) ->
  forall l v0, NoDup l -> (forall i, In i l -> i < N) -> length v0 = N ->
  exists v, mfold body l v0 s = Ok (v, s, []) /\ length v = N
            /\ forall i, In i l -> exists a, nth_error v i = Some a /\ P i a.
Proof.
  intros Hbody l v0 Hnd Hl L0.
  destruct (@mfold_rule _ _ _ body s
              (fun done v => length v = N
                             /\ forall i, In i done ->
                                  exists a, nth_error v i = Some a /\ P i a)
              l [] v0) as (v & Ev & Lv & Hv).
  - split; [exact L0 | intros i []].
  - intros pre i post v1 El (L1 & H1). simpl in H1 |- *.
    assert (Hi : i < N) by (apply Hl; rewrite El; apply in_elt).
    assert (Hni : ~ In i pre).
    { rewrite El in Hnd. apply NoDup_remove_2 in Hnd.
      intros Hin. apply Hnd. apply in_or_app. left. exact Hin. }
    destruct (Hbody v1 i Hi L1) as (a & v' & Eb & Es & Pa).
    exists v'. split; [exact Eb |].
    apply vset_Ok_inv in Es. destruct Es as (_ & L' & En & Eo).
    split; [lia |]. intros j Hj. apply in_app_or in Hj.
    destruct Hj as [Hj | [<- | []]].
    + destruct (H1 j Hj) as (b & Eb' & Pb). exists b. split; [| exact Pb].
      rewrite Eo; [exact Eb' |]. intros ->. contradiction.
    + exists a. split; assumption.
  - exists v. split; [exact Ev |]. split; [exact Lv | exact Hv].
Qed.
End FillFacts.

Module ExactSpeedLimits.
Import Exact ExactFacts ExactControlStatements.
Local Open Scope R_scope.

Lemma s_max_spec (a b : R) : s_max a b = Rmax a b.
Proof.
  unfold s_max. simpl. unfold Rmax.
  destruct (Rltb a b) eqn:E; [apply Rltb_true in E | apply Rltb_false in E];
    destruct (Rle_dec a b); lra.
Qed.

Lemma s_min_spec (a b : R) : s_min a b = Rmin a b.
Proof.
  unfold s_min. simpl. unfold Rmin.
  destruct (Rltb b a) eqn:E; [apply Rltb_true in E | apply Rltb_false in E];
    destruct (Rle_dec a b); lra.
Qed.

Lemma saturate_within (x lower upper : R) :
  lower <= upper ->
  lower <= saturate x lower upper <= upper
  /\ (lower <= x <= upper -> saturate x lower upper = x).
Proof.
  intros Hlu. unfold saturate. simpl.
  destruct (Rltb x lower) eqn:E1; [apply Rltb_true in E1 | apply Rltb_false in E1].
  - split; [lra |]. intros Hx. lra.
  - destruct (Rltb upper x) eqn:E2; [apply Rltb_true in E2 | apply Rltb_false in E2].
    + split; [lra |]. intros Hx. lra.
    + split; [lra | reflexivity].
Qed.

(** X2.  The speed limits of a joint inside its position limits allow
    standing still and never exceed the velocity limit. *)
Theorem get_speed_limit_envelope (s : Control R) (i : nat) (lim : R * R)
        (qi vl al : R) :
  joint_entry s i lim qi vl al ->
  0 < dt s -> fst lim <= qi <= snd lim -> 0 <= vl -> 0 <= al ->
  exists lower upper,
    get_speed_limit i s = Ok ((lower, upper), s, [])
    /\ - vl <= lower <= 0 /\ 0 <= upper <= vl.
Proof.
  intros He Hdt Hq Hv Ha.
  eexists. eexists. split; [apply (get_speed_limit_run He) |].
  rewrite !s_max_spec, !s_min_spec. rewrite R_two, lit_unit.
  change (@s_mul R _) with Rmult. change (@s_div R _) with Rdiv.
  change (@s_sub R _) with Rminus. change (@s_opp R _) with Ropp.
  change (@s_sqrt R _) with sqrt.
  pose proof (Rinv_0_lt_compat _ Hdt) as Hinv.
  assert (P1 : (fst lim - qi) / dt s <= 0) by (unfold Rdiv; nra).
  assert (P2 : 0 <= (snd lim - qi) / dt s) by (unfold Rdiv; nra).
  pose proof (sqrt_pos (al * (qi - fst lim))) as Q1.
  pose proof (sqrt_pos (al * (snd lim - qi))) as Q2.
  split.
  - split.
    + eapply Rle_trans; [| apply Rmax_r]. apply Rmax_l.
    + apply Rmax_lub; [exact P1 |]. apply Rmax_lub; lra.
  - split.
    + apply Rmin_glb; [exact P2 |]. apply Rmin_glb; lra.
    + eapply Rle_trans; [apply Rmin_r |]. apply Rmin_l.
Qed.

End ExactSpeedLimits.

Section SpeedLimitsLoop.
Context {F : Type} `{External F} {KB : KinematicBase F}.

Lemma get_speed_limit_sized (s : Control F) (i : nat) :
  sized s -> i < n s ->
  exists lower upper, get_speed_limit i s = Ok ((lower, upper), s, []).
Proof.
  intros Hs Hi. destruct (sized_entry Hs Hi) as (lim & qi & vl & al & He).
  eexists. eexists. apply (get_speed_limit_run He).
Qed.

(** The loop of line 122 fills both vectors with the bounds of every joint. *)
Lemma speed_limits_run (s : Control F) :
  sized s ->
  exists xMin xMax,
    speed_limits s = Ok ((xMin, xMax), s, [])
    /\ length xMin = n s /\ length xMax = n s
    /\ forall i, i < n s ->
         exists lower upper,
           get_speed_limit i s = Ok ((lower, upper), s, [])
           /\ nth_error xMin i = Some lower /\ nth_error xMax i = Some upper.
Proof.
  intros Hs. unfold speed_limits. rewrite mbind_this.
  match goal with |- context [mfold ?body _ _ _] =>
    destruct (@mfold_rule _ _ _ body s
      (fun done b =>
         length (fst b) = n s /\ length (snd b) = n s
         /\ forall i, In i done ->
              exists lower upper,
                get_speed_limit i s = Ok ((lower, upper), s, [])
                /\ nth_error (fst b) i = Some lower
                /\ nth_error (snd b) i = Some upper)
      (seq 0 (n s)) [] (vzero (n s), vzero (n s)))
      as ([xMin xMax] & Eb & L1 & L2 & Hb)
  end.
  - simpl. rewrite vzero_length. split; [reflexivity |].
    split; [reflexivity | intros i []].
  - intros pre i post [b1 b2] El (L1 & L2 & Hb). simpl in L1, L2, Hb |- *.
    assert (Hin : In i (seq 0 (n s))) by (rewrite El; apply in_elt).
    assert (Hi : i < n s) by (apply in_seq in Hin; lia).
    assert (Hni : ~ In i pre).
    { pose proof (seq_NoDup (n s) 0) as Hnd. rewrite El in Hnd.
      apply NoDup_remove_2 in Hnd.
      intros Hp. apply Hnd. apply in_or_app. left. exact Hp. }
    destruct (get_speed_limit_sized Hs Hi) as (lower & upper & Eg).
    destruct (vset_spec b1 (i:=i) lower) as (x1 & E1 & Lx1 & N1 & O1); [lia |].
    destruct (vset_spec b2 (i:=i) upper) as (x2 & E2 & Lx2 & N2 & O2); [lia |].
    exists (x1, x2). split.
    + rewrite (mbind_quiet _ _ Eg). cbv beta. simpl fst. simpl snd.
      rewrite (mbind_lift _ _ E1), (mbind_lift _ _ E2). reflexivity.
    + simpl. split; [lia |]. split; [lia |].
      intros j Hj. apply in_app_or in Hj. destruct Hj as [Hj | [<- | []]].
      * destruct (Hb j Hj) as (lo & up & Ej & A1 & A2).
        exists lo, up. split; [exact Ej |].
        assert (j <> i) by (intros ->; contradiction).
        rewrite O1, O2 by assumption. split; assumption.
      * exists lower, upper. split; [exact Eg |]. split; assumption.
  - exists xMin, xMax. simpl in *. split; [exact Eb |].
    split; [exact L1 |]. split; [exact L2 |].
    intros i Hi. apply Hb. apply in_seq. lia.
Qed.
End SpeedLimitsLoop.

(** ** The shape checks of the least-squares solvers *)

Section LeastSquaresChecks.
Context {F : Type} `{External F}.

Lemma set_block_Ok (M0 S0 : Mat F) (i0 j0 r c : nat) :
  i0 + r <= rows M0 -> j0 + c <= cols M0 -> rows S0 = r -> cols S0 = c ->
  exists M1, set_block M0 i0 j0 r c S0 = Ok M1
             /\ rows M1 = rows M0 /\ cols M1 = cols M0.
Proof.
  intros H1 H2 H3 H4. unfold set_block.
  rewrite (proj2 (Nat.leb_le _ _) H1), (proj2 (Nat.leb_le _ _) H2).
  rewrite (proj2 (Nat.eqb_eq _ _) H3), (proj2 (Nat.eqb_eq _ _) H4).
  eexists. split; [reflexivity |]. split; reflexivity.
Qed.

Lemma mbind_fault {S A B : Type} (k : A -> M S B) (s : S) :
  mbind (lift Fault) k s = Fault.
Proof. reflexivity. Qed.

Lemma neqb_true (a b : nat) : a <> b -> negb (Nat.eqb a b) = true.
Proof. intros Hn. apply Nat.eqb_neq in Hn. now rewrite Hn. Qed.

Lemma neqb_false (a b : nat) : a = b -> negb (Nat.eqb a b) = false.
Proof. intros ->. now rewrite Nat.eqb_refl. Qed.

(** The two checks of the box-constrained least squares. *)
Lemma least_squares_box_checks (fuel : nat) (y : Vec F) (A W : Mat F)
      (xMin xMax x0 : Vec F) (cfg : QPSolver F) :
  (negb (Nat.eqb (length y) (rows A)) || negb (Nat.eqb (length x0) (cols A))
   || negb (Nat.eqb (length xMin) (cols A)) || negb (Nat.eqb (length xMax) (cols A))
   || negb (Nat.eqb (length x0) (cols A))
   || (negb (Nat.eqb (rows W) (rows A)) || negb (Nat.eqb (cols W) (rows A)))) = true ->
  least_squares_box fuel y A W xMin xMax x0 cfg
  = Ok (x0, cfg, [least_squares_dimension_error])
  \/ least_squares_box fuel y A W xMin xMax x0 cfg
     = Ok (x0, cfg, [least_squares_weight_error]).
Proof.
  intros G. unfold least_squares_box.
  destruct (negb (Nat.eqb (length y) (rows A)) || negb (Nat.eqb (length x0) (cols A))
            || negb (Nat.eqb (length xMin) (cols A))
            || negb (Nat.eqb (length xMax) (cols A))
            || negb (Nat.eqb (length x0) (cols A))).
  - left. reflexivity.
  - simpl in G. rewrite G. right. reflexivity.
Qed.

(** X11.  The box-constrained least squares returns its start point, with one
    diagnostic on [std::cerr] and the solver unchanged, whenever the size of
    [y], [x0], [xMin], [xMax] or [W] does not fit [A]. *)
Theorem least_squares_box_rejects_mismatch (fuel : nat) (y : Vec F) (A W : Mat F)
        (xMin xMax x0 : Vec F) (cfg : QPSolver F) :
  length y <> rows A \/ length x0 <> cols A \/ length xMin <> cols A
  \/ length xMax <> cols A \/ rows W <> rows A \/ cols W <> rows A ->
  exists d, least_squares_box fuel y A W xMin xMax x0 cfg = Ok (x0, cfg, [d])
            /\ d_stream d = StdErr.
Proof.
  intros Hm.
  destruct (@least_squares_box_checks fuel y A W xMin xMax x0 cfg) as [E | E].
  - destruct Hm as [Hm | [Hm | [Hm | [Hm | [Hm | Hm]]]]];
      rewrite (neqb_true Hm); rewrite ?orb_true_r; reflexivity.
  - eexists. split; [exact E | reflexivity].
  - eexists. split; [exact E | reflexivity].
Qed.

(** The two checks of the least squares with equality and box constraints. *)
Lemma least_squares_equality_box_checks (fuel : nat) (xd : Vec F) (W : Mat F)
      (y : Vec F) (A : Mat F) (xMin xMax x0 : Vec F) (cfg : QPSolver F) :
  (negb (Nat.eqb (length xd) (cols A)) || negb (Nat.eqb (length y) (rows A))
   || negb (Nat.eqb (length x0) (cols A))
   || (negb (Nat.eqb (rows W) (cols A)) || negb (Nat.eqb (cols W) (cols A)))) = true ->
  least_squares_equality_box fuel xd W y A xMin xMax x0 cfg
  = Ok (x0, cfg, [least_squares_dimension_error])
  \/ least_squares_equality_box fuel xd W y A xMin xMax x0 cfg
     = Ok (x0, cfg, [least_squares_weight_error]).
Proof.
  intros G. unfold least_squares_equality_box.
  destruct (negb (Nat.eqb (length xd) (cols A)) || negb (Nat.eqb (length y) (rows A))
            || negb (Nat.eqb (length x0) (cols A))).
  - left. reflexivity.
  - simpl in G. rewrite G. right. reflexivity.
Qed.

(** X12.  The least squares with equality and box constraints returns its
    start point, with one diagnostic on [std::cerr] and the solver
    unchanged, whenever the size of [xd], [y], [x0] or [W] does not fit [A]. *)
Theorem least_squares_equality_box_rejects_mismatch
        (fuel : nat) (xd : Vec F) (W : Mat F) (y : Vec F) (A : Mat F)
        (xMin xMax x0 : Vec F) (cfg : QPSolver F) :
  length xd <> cols A \/ length y <> rows A \/ length x0 <> cols A
  \/ rows W <> cols A \/ cols W <> cols A ->
  exists d, least_squares_equality_box fuel xd W y A xMin xMax x0 cfg
            = Ok (x0, cfg, [d])
            /\ d_stream d = StdErr.
Proof.
  intros Hm.
  destruct (@least_squares_equality_box_checks fuel xd W y A xMin xMax x0 cfg)
    as [E | E].
  - destruct Hm as [Hm | [Hm | [Hm | [Hm | Hm]]]];
      rewrite (neqb_true Hm); rewrite ?orb_true_r; reflexivity.
  - eexists. split; [exact E | reflexivity].
  - eexists. split; [exact E | reflexivity].
Qed.

(** X13.  The least squares with equality and box constraints does not check
    the sizes of [xMin] and [xMax].  When every checked size fits and
    [xMin] or [xMax] has not as many coefficients as [A] has columns, the
    call ends in the size assertion of the assignment to [c], before the
    solver runs: no diagnostic, no start point returned. *)
Theorem least_squares_equality_box_unchecked_bounds
        (fuel : nat) (xd : Vec F) (W : Mat F) (y : Vec F) (A : Mat F)
        (xMin xMax x0 : Vec F) (cfg : QPSolver F) :
  length xd = cols A -> length y = rows A -> length x0 = cols A ->
  rows W = cols A -> cols W = cols A ->
  length xMax <> cols A \/ length xMin <> cols A ->
  least_squares_equality_box fuel xd W y A xMin xMax x0 cfg = Fault.
Proof.
  intros Lxd Ly Lx0 RW CW Hb. unfold least_squares_equality_box.
  rewrite (neqb_false Lxd), (neqb_false Ly), (neqb_false Lx0),
          (neqb_false RW), (neqb_false CW).
  cbn [orb].
  set (m := rows A) in *. set (n := cols A) in *.
  destruct (@set_block_Ok (mzero (m + n) (m + n)) (mzero m m) 0 0 m m)
    as (H1 & E1 & R1 & C1); [simpl; lia | simpl; lia | reflexivity | reflexivity |].
  rewrite (mbind_lift _ _ E1).
  destruct (@set_block_Ok H1 A 0 m m n)
    as (H2 & E2 & R2 & C2);
    [rewrite R1; simpl; lia | rewrite C1; simpl; lia | reflexivity | reflexivity |].
  rewrite (mbind_lift _ _ E2).
  destruct (@set_block_Ok H2 (mtranspose A) m 0 n m)
    as (H3 & E3 & R3 & C3);
    [rewrite R2, R1; simpl; lia | rewrite C2, C1; simpl; lia
     | reflexivity | reflexivity |].
  rewrite (mbind_lift _ _ E3).
  destruct (@set_block_Ok H3 W m m n n)
    as (H4 & E4 & R4 & C4);
    [rewrite R3, R2, R1; simpl; lia | rewrite C3, C2, C1; simpl; lia
     | exact RW | exact CW |].
  rewrite (mbind_lift _ _ E4).
  assert (E5 : segment_of m y = Ok y).
  { unfold segment_of. now rewrite Ly, Nat.eqb_refl. }
  rewrite (mbind_lift _ _ E5).
  destruct (@mvmul_Ok _ _ W xd) as (Wxd & E6 & L6); [congruence |].
  rewrite (mbind_lift _ _ E6).
  assert (E7 : segment_of n Wxd = Ok Wxd).
  { unfold segment_of. now rewrite L6, RW, Nat.eqb_refl. }
  rewrite (mbind_lift _ _ E7).
  destruct (@set_block_Ok (mzero (2 * n) (m + n)) (mzero (2 * n) m) 0 0 (2 * n) m)
    as (B1 & E8 & R8 & C8); [simpl; lia | simpl; lia | reflexivity | reflexivity |].
  rewrite (mbind_lift _ _ E8).
  destruct (@set_block_Ok B1 (mident n n) n m n n)
    as (B2 & E9 & R9 & C9);
    [rewrite R8; simpl; lia | rewrite C8; simpl; lia | reflexivity | reflexivity |].
  rewrite (mbind_lift _ _ E9).
  assert (E10 : get_block B2 n m n n
                = Ok (mkMat n n (fun i j => coeff B2 (n + i) (m + j)))).
  { unfold get_block. rewrite R9, R8, C9, C8. simpl rows. simpl cols.
    rewrite (proj2 (Nat.leb_le _ _)) by lia.
    rewrite (proj2 (Nat.leb_le _ _)) by lia. reflexivity. }
  rewrite (mbind_lift _ _ E10).
  destruct (@set_block_Ok B2 (mneg (mkMat n n (fun i j => coeff B2 (n + i) (m + j))))
                          0 m n n)
    as (B3 & E11 & R11 & C11);
    [rewrite R9, R8; simpl; lia | rewrite C9, C8; simpl; lia
     | reflexivity | reflexivity |].
  rewrite (mbind_lift _ _ E11).
  destruct (Nat.eq_dec (length xMax) n) as [LM | LM].
  + assert (E12 : segment_of n (vneg xMax) = Ok (vneg xMax)).
    { unfold segment_of. now rewrite vneg_length, LM, Nat.eqb_refl. }
    rewrite (mbind_lift _ _ E12).
    assert (Lm : length xMin <> n) by (destruct Hb; [contradiction | assumption]).
    assert (E13 : segment_of n xMin = Fault).
    { unfold segment_of. apply Nat.eqb_neq in Lm. now rewrite Lm. }
    rewrite E13. reflexivity.
  + assert (E12 : segment_of n (vneg xMax) = Fault).
    { unfold segment_of. rewrite vneg_length. apply Nat.eqb_neq in LM.
      now rewrite LM. }
    rewrite E12. reflexivity.
Qed.
End LeastSquaresChecks.

Section ShortArm.
Context {F : Type} `{External F} {KB : KinematicBase F}.

Lemma with_solver_keeps {A : Type} (m : M (QPSolver F) A) (s : Control F)
      (a : A) (l : list diagnostic) :
  m (solver s) = Ok (a, solver s, l) -> with_solver m s = Ok (a, s, l).
Proof. unfold with_solver. intros ->. destruct s. reflexivity. Qed.

(** [move_at_speed(vel,redundant)] for at most six joints, up to the call
    of the solver. *)
Lemma move_at_speed_redundant_small (fuel : nat) (vel redundant : Vec F)
      (s : Control F) (xMin xMax : Vec F) :
  length redundant = n s -> n s <= 6 ->
  speed_limits s = Ok ((xMin, xMax), s, []) ->
  length xMin = length xMax ->
  move_at_speed_redundant fuel vel redundant s
  = with_solver (least_squares_box fuel vel (get_jacobian s) (mident (n s) (n s))
                                   xMin xMax
                                   (vscale s_half (zipw s_add xMin xMax))) s.
Proof.
  intros Lr Hn El Lx. unfold move_at_speed_redundant.
  rewrite mbind_this, (neqb_false Lr), (mbind_quiet _ _ El).
  cbv beta. simpl fst. simpl snd.
  rewrite (proj2 (Nat.leb_le _ _) Hn).
  assert (Ea : vadd xMin xMax = Ok (zipw s_add xMin xMax)).
  { unfold vadd. now rewrite Lx, Nat.eqb_refl. }
  rewrite (mbind_lift _ _ Ea). reflexivity.
Qed.

Lemma get_pose_error_length (desired actual : Isometry3 F) :
  length (get_pose_error desired actual) = 6.
Proof. reflexivity. Qed.

(** For fewer than six joints the call of [least_squares] is refused,
    whatever the velocity and the redundant task. *)
Lemma short_arm_command (fuel : nat) (s : Control F) :
  sized s -> n s < 6 ->
  exists xMin xMax d,
    speed_limits s = Ok ((xMin, xMax), s, [])
    /\ (d = least_squares_dimension_error \/ d = least_squares_weight_error)
    /\ forall vel r,
         length vel = 6 -> length r = n s ->
         move_at_speed_redundant fuel vel r s
         = Ok (vscale s_half (zipw s_add xMin xMax), s, [d]).
Proof.
  intros Hs Hn.
  destruct (speed_limits_run Hs) as (xMin & xMax & El & L1 & L2 & _).
  exists xMin, xMax.
  set (x0 := vscale s_half (zipw s_add xMin xMax)).
  set (J := get_jacobian s).
  destruct (negb (Nat.eqb 6 (rows J)) || negb (Nat.eqb (length x0) (cols J))
            || negb (Nat.eqb (length xMin) (cols J))
            || negb (Nat.eqb (length xMax) (cols J))
            || negb (Nat.eqb (length x0) (cols J))) eqn:G.
  - exists least_squares_dimension_error. split; [exact El |].
    split; [left; reflexivity |].
    intros vel r Lv Lr.
    rewrite (@move_at_speed_redundant_small fuel vel r s xMin xMax Lr
               ltac:(lia) El ltac:(lia)).
    apply with_solver_keeps. unfold least_squares_box.
    fold x0. fold J. rewrite Lv, G. reflexivity.
  - exists least_squares_weight_error. split; [exact El |].
    split; [right; reflexivity |].
    intros vel r Lv Lr.
    rewrite (@move_at_speed_redundant_small fuel vel r s xMin xMax Lr
               ltac:(lia) El ltac:(lia)).
    apply with_solver_keeps. unfold least_squares_box.
    fold x0. fold J. rewrite Lv, G.
    assert (R6 : rows J = 6).
    { destruct (Nat.eqb 6 (rows J)) eqn:E6; [now apply Nat.eqb_eq in E6 |].
      simpl in G. discriminate G. }
    assert (Hw : negb (Nat.eqb (rows (mident (n s) (n s))) (rows J)) = true).
    { apply neqb_true. simpl. lia. }
    rewrite Hw. reflexivity.
Qed.

(** X7.  For an arm of fewer than six joints the identity weight that
    [move_at_speed] passes has [n] rows where the least squares expects
    six, so the least squares is never solved.  Whatever the velocity or
    the pose asked for, every Cartesian command ([move_at_speed],
    [move_to_pose] and [track_cartesian_trajectory], with or without a
    redundant task) is the midpoint of the speed limits, with one
    diagnostic of [least_squares] and the controller unchanged. *)
Theorem cartesian_commands_short_arm (fuel : nat) (vel redundant : Vec F)
        (pose : Isometry3 F) (s : Control F) :
  sized s -> n s < 6 -> length vel = 6 -> length redundant = n s ->
  exists xMin xMax d,
    speed_limits s = Ok ((xMin, xMax), s, [])
    /\ (d = least_squares_dimension_error \/ d = least_squares_weight_error)
    /\ move_at_speed_redundant fuel vel redundant s
       = Ok (vscale s_half (zipw s_add xMin xMax), s, [d])
    /\ move_at_speed fuel vel s
       = Ok (vscale s_half (zipw s_add xMin xMax), s, [d])
    /\ move_to_pose fuel pose s
       = Ok (vscale s_half (zipw s_add xMin xMax), s, [d])
    /\ move_to_pose_redundant fuel pose redundant s
       = Ok (vscale s_half (zipw s_add xMin xMax), s, [d])
    /\ track_cartesian_trajectory fuel pose vel s
       = Ok (vscale s_half (zipw s_add xMin xMax), s, [d])
    /\ track_cartesian_trajectory_redundant fuel pose vel redundant s
       = Ok (vscale s_half (zipw s_add xMin xMax), s, [d]).
Proof.
  intros Hs Hn Lv Lr.
  destruct (short_arm_command fuel Hs Hn) as (xMin & xMax & d & El & Hd & Hr).
  exists xMin, xMax, d. split; [exact El |]. split; [exact Hd |].
  assert (Em : forall v, length v = 6 ->
                 move_at_speed fuel v s
                 = Ok (vscale s_half (zipw s_add xMin xMax), s, [d])).
  { intros v Lv'. unfold move_at_speed. rewrite mbind_this.
    rewrite (proj2 (Nat.leb_le _ _)) by lia.
    apply Hr; [exact Lv' | apply vzero_length]. }
  set (e := vscale (k s) (get_pose_error pose (get_endpoint_pose s))).
  assert (Le : length e = 6).
  { unfold e. rewrite vscale_length. apply get_pose_error_length. }
  assert (Ea : exists v, vadd vel e = Ok v /\ length v = 6).
  { destruct (@vadd_Ok _ _ vel e) as (v & Ev & Lv'); [lia |].
    exists v. split; [exact Ev | lia]. }
  destruct Ea as (v & Ev & Lv').
  split; [apply Hr; assumption |].
  split; [apply Em; exact Lv |].
  split; [unfold move_to_pose; rewrite mbind_this; apply Em; exact Le |].
  split.
  { unfold move_to_pose_redundant. rewrite mbind_this, (neqb_false Lr).
    apply Hr; assumption. }
  split.
  { unfold track_cartesian_trajectory. rewrite mbind_this.
    fold e. rewrite (mbind_lift _ _ Ev). apply Em. exact Lv'. }
  unfold track_cartesian_trajectory_redundant.
  rewrite mbind_this, (neqb_false Lr). fold e.
  rewrite (mbind_lift _ _ Ev). apply Hr; assumption.
Qed.
End ShortArm.

Module ExactControl.
Import Exact ExactFacts ExactControlStatements ExactSpeedLimits.
Local Open Scope R_scope.

(** X1.  The proportional gain.  A zero gain is refused: the result is
    [false], the controller is unchanged and one diagnostic is written.
    Any other gain is stored by its absolute value, so that after a call
    that returns [true] the gain is positive; nothing else changes. *)
Theorem set_proportional_gain_stores_magnitude (gain : R) (s : Control R) :
  (gain = 0 ->
   exists d, set_proportional_gain gain s = Ok (false, s, [d]))
  /\ (gain <> 0 ->
      exists log,
        set_proportional_gain gain s
        = Ok (true,
              mkControl (solver s) (n s) (Rabs gain) (kp s) (q s) (pLim s)
                        (vLim s) (aLim s) (dt s),
              log)
        /\ 0 < Rabs gain
        /\ (0 < gain -> log = [])).
Proof.
  unfold set_proportional_gain. rewrite R_zero.
  change (@s_leb R _) with Rleb. change (@s_ltb R _) with Rltb.
  split.
  - intros ->.
    assert (E : Rleb 0 0 = true) by (apply Rleb_true; lra).
    rewrite E. simpl. eexists. reflexivity.
  - intros Hg.
    destruct (Rleb gain 0) eqn:E1; [apply Rleb_true in E1 | apply Rleb_false in E1].
    + assert (E2 : Rleb 0 gain = false) by (apply Rleb_false; lra).
      assert (E3 : Rltb gain 0 = true) by (apply Rltb_true; lra).
      rewrite E2, E3. simpl andb. cbv iota.
      eexists. split; [| split; [apply Rabs_pos_lt; exact Hg | intros; exfalso; lra]].
      unfold mbind, cerr, emit, this, put, mret. simpl app.
      rewrite Rabs_left by lra. rewrite lit_unit.
      change (@s_mul R _) with Rmult.
      replace (-1 * gain) with (- gain) by ring. reflexivity.
    + assert (E3 : Rltb gain 0 = false) by (apply Rltb_false; lra).
      rewrite E3. simpl andb. cbv iota.
      exists []. split; [| split; [apply Rabs_pos_lt; exact Hg | reflexivity]].
      unfold mbind, this, put, mret. simpl app.
      rewrite Rabs_right by lra. reflexivity.
Qed.

(** X3.  With a positive control period, at a position limit the speed
    limit on that side closes: for a joint at its lower position limit the
    lower speed limit is exactly 0, and for a joint at its upper position
    limit the upper one is. *)
Theorem get_speed_limit_closes_at_position_limit
        (s : Control R) (i : nat) (lim : R * R) (qi vl al : R) :
  joint_entry s i lim qi vl al -> 0 < dt s -> 0 <= vl ->
  exists lower upper,
    get_speed_limit i s = Ok ((lower, upper), s, [])
    /\ (qi = fst lim -> lower = 0)
    /\ (qi = snd lim -> upper = 0).
Proof.
  intros He Hdt Hv.
  pose proof (Rinv_0_lt_compat _ Hdt) as Hinv.
  eexists. eexists. split; [apply (get_speed_limit_run He) |].
  rewrite !s_max_spec, !s_min_spec. rewrite R_two, lit_unit.
  change (@s_mul R _) with Rmult. change (@s_div R _) with Rdiv.
  change (@s_sub R _) with Rminus. change (@s_opp R _) with Ropp.
  change (@s_sqrt R _) with sqrt.
  split.
  - intros ->.
    replace (fst lim - fst lim) with 0 by ring.
    rewrite Rmult_0_r, sqrt_0.
    replace (0 / dt s) with 0 by (unfold Rdiv; ring).
    replace (-2 * 0) with 0 by ring.
    rewrite (Rmax_right (- vl) 0) by lra.
    apply Rmax_left. lra.
  - intros ->.
    replace (snd lim - snd lim) with 0 by ring.
    rewrite Rmult_0_r, sqrt_0.
    replace (0 / dt s) with 0 by (unfold Rdiv; ring).
    replace (2 * 0) with 0 by ring.
    rewrite (Rmin_right vl 0) by lra.
    apply Rmin_left. lra.
Qed.

End ExactControl.

Module ExactJoints.
Import Exact ExactFacts ExactControlStatements ExactSpeedLimits.
Local Open Scope R_scope.

Section Joints.
Context {Ext : External R} {KB : KinematicBase R}.
Variable s : Control R.
Hypothesis Hop : operational s.

Lemma operational_limits (i : nat) :
  (i < n s)%nat ->
  exists qi lower upper,
    nth_error (q s) i = Some qi
    /\ get_speed_limit i s = Ok ((lower, upper), s, [])
    /\ lower <= 0 <= upper.
Proof.
  intros Hi. destruct Hop as (Hs & Hdt & Hj).
  destruct (sized_entry Hs Hi) as (lim & qi & vl & al & He).
  destruct (Hj _ _ _ _ _ He) as (Hq & Hv & Ha).
  destruct (get_speed_limit_envelope He Hdt Hq Hv Ha)
    as (lower & upper & Eg & B1 & B2).
  exists qi, lower, upper. split; [apply He |]. split; [exact Eg | lra].
Qed.

Lemma clamp (i : nat) (w : R) (v : Vec R) :
  (i < n s)%nat -> length v = n s ->
  forall lower upper,
    get_speed_limit i s = Ok ((lower, upper), s, []) -> lower <= 0 <= upper ->
    exists v', lift (vset v i (saturate w lower upper)) s = Ok (v', s, [])
               /\ vset v i (saturate w lower upper) = Ok v'
               /\ clamped_to_limits s i w (saturate w lower upper).
Proof.
  intros Hi Lv lower upper Eg Hb.
  destruct (vset_spec v (i:=i) (saturate w lower upper)) as (v' & Ev & _);
    [lia |].
  exists v'. split; [unfold lift; now rewrite Ev |]. split; [exact Ev |].
  exists lower, upper. split; [exact Eg |].
  apply saturate_within. lra.
Qed.

(** X4.  [move_to_position] on an operational controller returns a
    command for every joint, writes no diagnostic and leaves the
    controller unchanged.  Every component lies between the speed limits
    of its joint, and it is the proportional command [k*(pos(i) - q(i))]
    whenever that lies between them. *)
Theorem move_to_position_within_limits (pos : Vec R) :
  length pos = n s ->
  exists ctrl,
    move_to_position pos s = Ok (ctrl, s, [])
    /\ length ctrl = n s
    /\ forall i pi qi,
         nth_error pos i = Some pi -> nth_error (q s) i = Some qi ->
         exists c, nth_error ctrl i = Some c
                   /\ clamped_to_limits s i (k s * (pi - qi)) c.
Proof.
  intros Lp. unfold move_to_position.
  rewrite mbind_this, (neqb_false Lp).
  match goal with |- context [mfold ?body _ _ _] =>
    destruct (@mfold_fill R (Control R) body s (n s)
                (fun i c => forall pi qi,
                     nth_error pos i = Some pi -> nth_error (q s) i = Some qi ->
                     clamped_to_limits s i (k s * (pi - qi)) c))
      with (l := seq 0 (n s)) (v0 := @vzero R _ (n s))
      as (ctrl & Ec & Lc & Hc)
  end.
  - intros v i Hi Lv.
    destruct (operational_limits Hi) as (qi & lower & upper & Eq & Eg & Hb).
    destruct (nth_error pos i) as [pi |] eqn:Epi;
      [| apply nth_error_None in Epi; lia].
    destruct (@clamp i (k s * (pi - qi)) v Hi Lv lower upper Eg Hb)
      as (v' & El & Ev & Hcl).
    exists (saturate (k s * (pi - qi)) lower upper), v'.
    split; [| split; [exact Ev |]].
    + assert (E1 : vget pos i = Ok pi) by (unfold vget; now rewrite Epi).
      assert (E2 : vget (q s) i = Ok qi) by (unfold vget; now rewrite Eq).
      rewrite (mbind_lift _ _ E1), (mbind_lift _ _ E2), (mbind_quiet _ _ Eg).
      exact El.
    + intros pi' qi' Ep' Eq'. injection Ep' as <-.
      rewrite Eq in Eq'. injection Eq' as <-. exact Hcl.
  - apply seq_NoDup.
  - intros i Hi. apply in_seq in Hi. lia.
  - apply vzero_length.
  - exists ctrl. split; [exact Ec |]. split; [exact Lc |].
    intros i pi qi Ep Eq.
    assert (Hi : (i < n s)%nat).
    { rewrite <- Lp. apply nth_error_Some. congruence. }
    destruct (Hc i) as (c & En & Hcl); [apply in_seq; lia |].
    exists c. split; [exact En |]. apply Hcl; assumption.
Qed.

(** X5.  [track_joint_trajectory] on an operational controller: the same
    for the feed-forward velocity plus the proportional feedback,
    [vel(i) + k*(pos(i) - q(i))]. *)
Theorem track_joint_trajectory_within_limits (pos vel : Vec R) :
  length pos = n s -> length vel = n s ->
  exists ctrl,
    track_joint_trajectory pos vel s = Ok (ctrl, s, [])
    /\ length ctrl = n s
    /\ forall i pi vi,
         nth_error pos i = Some pi -> nth_error vel i = Some vi ->
         exists c, nth_error ctrl i = Some c
                   /\ clamped_to_limits s i
                        (vi + k s * (pi - get_joint_position s i)) c.
Proof.
  intros Lp Lv. unfold track_joint_trajectory.
  rewrite mbind_this, (neqb_false Lp), (neqb_false Lv).
  cbn [orb].
  match goal with |- context [mfold ?body _ _ _] =>
    destruct (@mfold_fill R (Control R) body s (n s)
                (fun i c => forall pi vi,
                     nth_error pos i = Some pi -> nth_error vel i = Some vi ->
                     clamped_to_limits s i
                       (vi + k s * (pi - get_joint_position s i)) c))
      with (l := seq 0 (n s)) (v0 := @vzero R _ (n s))
      as (ctrl & Ec & Lc & Hc)
  end.
  - intros v i Hi Lv'.
    destruct (operational_limits Hi) as (qi & lower & upper & Eq & Eg & Hb).
    destruct (nth_error pos i) as [pi |] eqn:Epi;
      [| apply nth_error_None in Epi; lia].
    destruct (nth_error vel i) as [vi |] eqn:Evi;
      [| apply nth_error_None in Evi; lia].
    destruct (@clamp i (vi + k s * (pi - get_joint_position s i)) v Hi Lv'
                     lower upper Eg Hb)
      as (v' & El & Ev & Hcl).
    exists (saturate (vi + k s * (pi - get_joint_position s i)) lower upper), v'.
    split; [| split; [exact Ev |]].
    + assert (E1 : vget vel i = Ok vi) by (unfold vget; now rewrite Evi).
      assert (E2 : vget pos i = Ok pi) by (unfold vget; now rewrite Epi).
      rewrite (mbind_lift _ _ E1), (mbind_lift _ _ E2), (mbind_quiet _ _ Eg).
      exact El.
    + intros pi' vi' Ep' Ev'. injection Ep' as <-. injection Ev' as <-.
      exact Hcl.
  - apply seq_NoDup.
  - intros i Hi. apply in_seq in Hi. lia.
  - apply vzero_length.
  - exists ctrl. split; [exact Ec |]. split; [exact Lc |].
    intros i pi vi Ep Ev.
    assert (Hi : (i < n s)%nat).
    { rewrite <- Lp. apply nth_error_Some. congruence. }
    destruct (Hc i) as (c & En & Hcl); [apply in_seq; lia |].
    exists c. split; [exact En |]. apply Hcl; assumption.
Qed.
End Joints.
End ExactJoints.

Section BackSubstitution.
Context {F : Type} `{Scalar F}.
Local Open Scope scalar_scope.

(** The inner sum of [solve_joint_control] reads coefficients that exist. *)
Lemma row_sum_total (U : Mat F) (i : nat) (v : Vec F) :
  forall (l : list nat) (acc : F),
    (forall j, In j l -> j < length v) ->
    exists r, ofold (fun sum j => qj <- vget v j ;; Ok (sum + coeff U i j * qj))
                    l acc = Ok r.
Proof.
  induction l as [| j l IH]; intros acc Hl.
  - exists acc. reflexivity.
  - simpl. unfold vget at 1.
    destruct (nth_error v j) as [qj |] eqn:E.
    + simpl. apply IH. intros j' Hj'. apply Hl. now right.
    + apply nth_error_None in E. specialize (Hl j (or_introl eq_refl)). lia.
Qed.
End BackSubstitution.

Module ExactBackSubstitution.
Import Exact ExactFacts ExactControlStatements ExactSpeedLimits ExactJoints.
Local Open Scope R_scope.

Lemma saturate_swapped (x lower upper : R) :
  lower <= upper ->
  saturate x upper lower = lower \/ saturate x upper lower = upper.
Proof.
  intros Hlu. unfold saturate. simpl.
  destruct (Rltb x upper) eqn:E1; [right; reflexivity |].
  apply Rltb_false in E1.
  destruct (Rltb lower x) eqn:E2; [left; reflexivity |].
  apply Rltb_false in E2. left. lra.
Qed.

Section Solve.
Context {Ext : External R} {KB : KinematicBase R}.
Variable s : Control R.
Hypothesis Hop : operational s.

(** X6.  [solve_joint_control] as it is written, on an operational
    controller and inputs of the right sizes: it returns a command for
    every joint, and every component is one of the two speed limits of its
    joint, never a value strictly between them.  (The limits are read
    into the swapped variables, so that the test against [lower] compares
    with the upper limit.) *)
Theorem solve_joint_control_returns_a_limit (y : Vec R) (U : Mat R) :
  length y = n s -> rows U = n s -> cols U = n s ->
  exists qdot,
    solve_joint_control y U s = Ok (qdot, s, [])
    /\ length qdot = n s
    /\ forall i, (i < n s)%nat ->
         exists lower upper c,
           get_speed_limit i s = Ok ((lower, upper), s, [])
           /\ nth_error qdot i = Some c
           /\ (c = lower \/ c = upper).
Proof.
  intros Ly RU CU. unfold solve_joint_control.
  rewrite mbind_this, (neqb_false Ly), (neqb_false RU), (neqb_false CU).
  cbn [orb].
  match goal with |- context [mfold ?body _ _ _] =>
    destruct (@mfold_fill R (Control R) body s (n s)
                (fun i c => exists lower upper,
                     get_speed_limit i s = Ok ((lower, upper), s, [])
                     /\ (c = lower \/ c = upper)))
      with (l := rev (seq 0 (n s))) (v0 := @vzero R _ (n s))
      as (qdot & Ec & Lc & Hc)
  end.
  - intros v i Hi Lv.
    destruct (operational_limits Hop Hi) as (qi & lower & upper & Eq & Eg & Hb).
    destruct (@row_sum_total R _ U i v (seq (i + 1) (n s - (i + 1))) s_zero)
      as (sum & Esum).
    { intros j Hj. apply in_seq in Hj. lia. }
    rewrite (mbind_lift _ _ Esum).
    match goal with |- context [mbind (if ?b then ?m1 else ?m2)] =>
      assert (Eqi : exists x, (if b then m1 else m2) s = Ok (x, s, []))
    end.
    { destruct (w_ltb (widen (s_abs (coeff U i i))) w_1em5);
        [eexists; reflexivity |].
      destruct (nth_error y i) as [yi |] eqn:Ey;
        [| apply nth_error_None in Ey; lia].
      assert (E1 : vget y i = Ok yi) by (unfold vget; now rewrite Ey).
      rewrite (mbind_lift _ _ E1). eexists. reflexivity. }
    destruct Eqi as (x & Eqi).
    destruct (vset_spec v (i:=i) (saturate x upper lower)) as (v' & Ev & _);
      [lia |].
    exists (saturate x upper lower), v'. split; [| split; [exact Ev |]].
    + rewrite (mbind_quiet _ _ Eqi), (mbind_quiet _ _ Eg).
      cbv beta. simpl fst. simpl snd. unfold lift. now rewrite Ev.
    + exists lower, upper. split; [exact Eg |].
      apply saturate_swapped. lra.
  - apply NoDup_rev. apply seq_NoDup.
  - intros i Hi. apply in_rev in Hi. apply in_seq in Hi. lia.
  - apply vzero_length.
  - exists qdot. split; [exact Ec |]. split; [exact Lc |].
    intros i Hi.
    destruct (Hc i) as (c & En & lower & upper & Eg & Hcl).
    { apply -> in_rev. apply in_seq. lia. }
    exists lower, upper, c. split; [exact Eg |]. split; assumption.
Qed.
End Solve.
End ExactBackSubstitution.

Module ExactPoseError.
Import Exact ExactFacts.
Local Open Scope R_scope.

Section Poses.
Context {KB : KinematicBase R}.

Lemma quat_dot_sym (a b : Quaternion R) : quat_dot a b = quat_dot b a.
Proof. unfold quat_dot. simpl. ring. Qed.

(** X9.  In exact arithmetic the pose error is antisymmetric: exchanging
    the desired and the actual pose negates every component. *)
Theorem get_pose_error_antisymmetric (desired actual : Isometry3 R) :
  get_pose_error actual desired = vneg (get_pose_error desired actual).
Proof.
  unfold get_pose_error.
  rewrite (quat_dot_sym (quaternion_of_rotation (rotation actual))
                        (quaternion_of_rotation (rotation desired))).
  destruct (quat_dot (quaternion_of_rotation (rotation desired))
                     (quaternion_of_rotation (rotation actual)) <=? s_zero)%S;
    destruct (quaternion_of_rotation (rotation desired)) as [dw dx dy dz];
    destruct (quaternion_of_rotation (rotation actual)) as [aw ax ay az];
    destruct (translation desired) as [d1 d2 d3];
    destruct (translation actual) as [a1 a2 a3];
    cbv [v3list vec qmul conjugate v3sub v3neg vneg app map
         q_w q_x q_y q_z v_x v_y v_z];
    simpl; repeat (apply (f_equal2 (@cons R)); [ring |]); reflexivity.
Qed.

(** X10.  In exact arithmetic the error of a pose against itself is zero in
    all six components. *)
Theorem get_pose_error_zero_at_target (pose : Isometry3 R) :
  get_pose_error pose pose = [0; 0; 0; 0; 0; 0].
Proof.
  unfold get_pose_error.
  destruct (quat_dot (quaternion_of_rotation (rotation pose))
                     (quaternion_of_rotation (rotation pose)) <=? s_zero)%S;
    destruct (quaternion_of_rotation (rotation pose)) as [w x y z];
    destruct (translation pose) as [t1 t2 t3];
    cbv [v3list vec qmul conjugate v3sub v3neg vneg app map
         q_w q_x q_y q_z v_x v_y v_z];
    simpl; repeat (apply (f_equal2 (@cons R)); [ring |]); reflexivity.
Qed.
End Poses.
End ExactPoseError.

Section UnconstrainedFacts.
Context {F : Type} `{External F}.

(** X15.  The unconstrained least squares on inputs whose sizes fit: it
    writes no diagnostic of its own and its result is that of
    [solve_linear_system] on the normal equations, called with
    [f = A'*W*y] first and [H = A'*W*A] second; [H] is square of the size
    of [x0], so that the size check of [solve] does not fire. *)
Theorem least_squares_solves_normal_equations (y : Vec F) (A W : Mat F)
        (x0 : Vec F) (cfg : QPSolver F) :
  length y = rows A -> length x0 = cols A ->
  rows W = rows A -> cols W = rows A ->
  exists AtW AtWA AtWy,
    mmul (mtranspose A) W = Ok AtW
    /\ mmul AtW A = Ok AtWA
    /\ mvmul AtW y = Ok AtWy
    /\ rows AtWA = length x0 /\ cols AtWA = length x0
    /\ length AtWy = length x0
    /\ least_squares y A W x0 cfg = solve_linear_system AtWy AtWA x0 cfg.
Proof.
  intros Ly Lx RW CW.
  assert (E1 : cols (mtranspose A) = rows W) by (simpl; congruence).
  pose proof (mmul_Ok (mtranspose A) W E1) as E1'.
  set (AtW := mkMat (rows (mtranspose A)) (cols W)
                (fun i j => dot_from s_zero (mrow (mtranspose A) i) (mcol W j)))
    in E1'.
  assert (E2 : cols AtW = rows A) by (simpl; exact CW).
  pose proof (mmul_Ok AtW A E2) as E2'.
  set (AtWA := mkMat (rows AtW) (cols A)
                 (fun i j => dot_from s_zero (mrow AtW i) (mcol A j))) in E2'.
  destruct (@mvmul_Ok _ _ AtW y) as (AtWy & E3 & L3); [simpl; congruence |].
  exists AtW, AtWA, AtWy.
  split; [exact E1' |]. split; [exact E2' |]. split; [exact E3 |].
  assert (R1 : rows AtWA = length x0) by (simpl; congruence).
  assert (C1 : cols AtWA = length x0) by (simpl; congruence).
  assert (L1 : length AtWy = length x0) by (rewrite L3; simpl; congruence).
  split; [exact R1 |]. split; [exact C1 |]. split; [exact L1 |].
  unfold least_squares.
  rewrite (neqb_false Ly), (neqb_false Lx), (neqb_false RW), (neqb_false CW).
  cbn [orb].
  rewrite (mbind_lift _ _ E1'), (mbind_lift _ _ E2'), (mbind_lift _ _ E3).
  unfold solve.
  rewrite (neqb_false R1), (neqb_false C1), (neqb_false L1). reflexivity.
Qed.
End UnconstrainedFacts.

Section SizeFacts.
Context {F : Type} `{External F}.

(** The point from which an iteration steps is the current iterate or the
    previous one. *)
Lemma newton_step_point (fuel : nat) (cfg : QPSolver F) (Hm : Mat F) (f : Vec F)
      (bt : list (Vec F)) (btb : list (Mat F)) (c : Vec F) (m n : nat)
      (d : list F) (st : ipm_state) (x : Vec F) (beta : F)
      (p : pass_state) (dx : Vec F) (alpha : F) :
  newton_step fuel cfg Hm f bt btb c m n d st = Ok (x, beta, p, dx, alpha) ->
  x = ip_x st \/ x = ip_x_prev st.
Proof.
  intros E. unfold newton_step in E.
  apply obind_Ok_inv in E. destruct E as (p' & _ & E).
  destruct (ps_violation p');
    apply obind_Ok_inv in E; destruct E as (Hx & _ & E);
    apply obind_Ok_inv in E; destruct E as (r & _ & E);
    apply obind_Ok_inv in E; destruct E as (g & _ & E);
    apply obind_Ok_inv in E; destruct E as (dx' & _ & E);
    apply obind_Ok_inv in E; destruct E as (al & _ & E);
    injection E as <- _ _ _ _; [right | left]; reflexivity.
Qed.

Lemma interior_point_loop_size (fuel : nat) (cfg : QPSolver F) (Hm : Mat F)
      (f : Vec F) (bt : list (Vec F)) (btb : list (Mat F)) (c : Vec F)
      (m n : nat) (count : nat) :
  forall (d : list F) (st : ipm_state) (x : Vec F),
    length (ip_x st) = n -> length (ip_x_prev st) = n ->
    interior_point_loop count fuel cfg Hm f bt btb c m n d st = Ok x ->
    length x = n.
Proof.
  induction count as [| count IH]; intros d st x Lx Lp E.
  - simpl in E. injection E as <-. exact Lx.
  - simpl in E. apply obind_Ok_inv in E. destruct E as ([r d'] & Ei & E).
    unfold iteration in Ei.
    apply obind_Ok_inv in Ei.
    destruct Ei as ([[[[x1 beta] p] dx] alpha] & En & Ei).
    assert (L1 : length x1 = n).
    { apply newton_step_point in En. destruct En as [-> | ->]; assumption. }
    destruct ((alpha * vnorm dx <? tol cfg)%S).
    + injection Ei as <- <-. injection E as <-. exact L1.
    + apply obind_Ok_inv in Ei. destruct Ei as (x' & Ex' & Ei).
      injection Ei as <- <-.
      apply IH in E; [exact E | | exact L1].
      simpl. unfold vadd in Ex'.
      destruct (Nat.eqb (length x1) (length (vscale alpha dx))) eqn:El;
        [| discriminate].
      injection Ex' as <-. apply Nat.eqb_eq in El.
      rewrite zipw_length by exact El. exact L1.
Qed.

(** X17.  Whatever the arithmetic, a vector that the constrained [solve]
    returns has as many coefficients as the start point [x0], on the
    rejected inputs and after the interior-point loop alike. *)
Theorem solve_constrained_keeps_size (fuel : nat) (Hm : Mat F) (f : Vec F)
        (B : Mat F) (c x0 x : Vec F) (cfg cfg' : QPSolver F)
        (log : list diagnostic) :
  solve_constrained fuel Hm f B c x0 cfg = Ok (x, cfg', log) ->
  length x = length x0.
Proof.
  intros Es. unfold solve_constrained in Es.
  destruct (negb (Nat.eqb (rows Hm) (length x0)) || negb (Nat.eqb (cols Hm) (length x0))
            || negb (Nat.eqb (length f) (length x0))
            || negb (Nat.eqb (rows B) (length c))).
  - unfold mbind, emit, mret in Es. injection Es as <- _ _. reflexivity.
  - apply mbind_Ok_inv in Es. destruct Es as (cfg0 & s' & l1 & l2 & Et & El & _).
    unfold this in Et. injection Et as <- <- _.
    apply lift_Ok_inv in El. destruct El as (El & _ & _).
    unfold interior_point in El.
    apply interior_point_loop_size in El; [exact El | reflexivity | reflexivity].
Qed.
End SizeFacts.

Section BoxReturns.
Context {F : Type} `{External F}.
Variable cfg : QPSolver F.
Variable n : nat.

(** Eigen's LU solver returns a vector of the size of the system. *)
Hypothesis lu_size :
  forall (A : Mat F) (v : Vec F),
    rows A = n -> cols A = n -> length v = n ->
    exists x, partialPivLu_solve A v = Ok x /\ length x = n.
Hypothesis floor_not_negative : negative (s_1em2 : F) = false.
Variable K : nat.
Variable fuel : nat.
Hypothesis enough_fuel : K < fuel.
Hypothesis step_bottoms_out :
  forall d s : F, negative d = false ->
                  negative (d + shrunk cfg K * s)%S = false.

(** X16.  The box-constrained least squares on inputs whose sizes fit,
    under the conditions of the termination of the interior-point loop:
    the matrices it builds fit the constrained [solve], whose size check
    does not fire, and the call returns a vector of the size of [x0]
    without a diagnostic and with the solver unchanged. *)
Theorem least_squares_box_returns (y : Vec F) (A W : Mat F)
        (xMin xMax x0 : Vec F) :
  cols A = n -> length y = rows A -> rows W = rows A -> cols W = rows A ->
  length xMin = n -> length xMax = n -> length x0 = n ->
  exists x,
    least_squares_box fuel y A W xMin xMax x0 cfg = Ok (x, cfg, [])
    /\ length x = n.
Proof.
  intros CA Ly RW CW Lmin Lmax Lx0. unfold least_squares_box.
  rewrite CA.
  rewrite (neqb_false Ly), (neqb_false Lx0), (neqb_false Lmin),
          (neqb_false Lmax), (neqb_false RW), (neqb_false CW).
  cbn [orb].
  destruct (@set_block_Ok _ (mzero (2 * n) n)
              (mscale (s_lit (-1) 1) (mident n n)) 0 0 n n)
    as (B0 & E0 & R0 & C0); [simpl; lia | simpl; lia | reflexivity | reflexivity |].
  rewrite (mbind_lift _ _ E0).
  destruct (@set_block_Ok _ B0 (mident n n) n 0 n n)
    as (B & E1 & R1 & C1);
    [rewrite R0; simpl; lia | rewrite C0; simpl; lia | reflexivity | reflexivity |].
  rewrite (mbind_lift _ _ E1).
  assert (E2 : cols (mtranspose A) = rows W) by (simpl; congruence).
  pose proof (mmul_Ok (mtranspose A) W E2) as E2'.
  set (AtW := mkMat (rows (mtranspose A)) (cols W)
                (fun i j => dot_from s_zero (mrow (mtranspose A) i) (mcol W j)))
    in E2'.
  rewrite (mbind_lift _ _ E2').
  assert (E3 : cols AtW = rows A) by (simpl; exact CW).
  pose proof (mmul_Ok AtW A E3) as E3'.
  set (AtWA := mkMat (rows AtW) (cols A)
                 (fun i j => dot_from s_zero (mrow AtW i) (mcol A j))) in E3'.
  rewrite (mbind_lift _ _ E3').
  destruct (@mvmul_Ok _ _ AtW y) as (AtWy & E4 & L4); [simpl; congruence |].
  rewrite (mbind_lift _ _ E4).
  set (c := vscale (s_lit (-1) 1) xMax ++ xMin).
  assert (RH : rows AtWA = n) by (simpl; exact CA).
  assert (CH : cols AtWA = n) by (simpl; exact CA).
  assert (Lf : length AtWy = n) by (rewrite L4; simpl; exact CA).
  assert (CB : cols B = n) by (rewrite C1, C0; reflexivity).
  assert (Lc : length c = rows B).
  { unfold c. rewrite length_app, vscale_length, R1, R0. simpl. lia. }
  destruct (@interior_point_loop_total _ _ _ cfg AtWA AtWy B c n RH CH Lf CB Lc
              lu_size floor_not_negative K fuel enough_fuel step_bottoms_out
              (Z.to_nat (steps cfg)) (repeat s_zero (rows B))
              (mkIpm x0 x0 (beta0 cfg) (u0 cfg)))
    as (x & Ex & _); [apply repeat_length | exact Lx0 | exact Lx0 |].
  exists x. split.
  - unfold solve_constrained.
    rewrite RH, CH, Lf, Lc, Lx0, !Nat.eqb_refl. cbn [negb orb].
    rewrite mbind_this. unfold lift, interior_point.
    rewrite Lx0. rewrite Ex. reflexivity.
  - apply interior_point_loop_size in Ex; [exact Ex | exact Lx0 | exact Lx0].
Qed.
End BoxReturns.

Module ExactLineSearch.
Import Exact ExactFacts ExactSolve.
Local Open Scope R_scope.




Section Search.
Context {Ext : External R}.
Variable cfg : QPSolver R.
Hypothesis alpha0_nonneg : 0 <= alpha0 cfg.
Hypothesis alphaMod_range : 0 <= alphaMod cfg < 1.





Variable Hm : Mat R.
Variable f : Vec R.
Variable B : Mat R.
Variable c : Vec R.
Variable n : nat.

Let bt : list (Vec R) := map (mrow B) (seq 0 (rows B)).
Let btb : list (Mat R) := map vouter bt.

Hypothesis H_rows : rows Hm = n.
Hypothesis H_cols : cols Hm = n.
Hypothesis f_size : length f = n.
Hypothesis B_cols : cols B = n.
Hypothesis c_size : length c = rows B.
(** Eigen's LU solver returns a vector of the size of the system. *)
Hypothesis lu_size :
  forall (A : Mat R) (v : Vec R),
    rows A = n -> cols A = n -> length v = n ->
    exists x, partialPivLu_solve A v = Ok x /\ length x = n.

End Search.
End ExactLineSearch.

(** ** The properties at concrete inputs *)

Module ExactControlRuns.
Import Exact ExactFacts ExactControlStatements ExactBench.
Import ExactInputs ExactSpeedLimits ExactControl ExactJoints.
Import ExactBackSubstitution.
Local Open Scope R_scope.

Lemma entry_exact : joint_entry arm_exact 0 (-1, 1) (1 / 2) 1 4.
Proof. repeat split. Qed.

Lemma entry_at_limit : joint_entry arm_at_limit 0 (-1, 1) (-1) 1 4.
Proof. repeat split. Qed.

Lemma arm_exact_operational : operational arm_exact.
Proof.
  split; [repeat split |]. split; [simpl; lra |].
  intros [| i] lim qi vl al (E1 & E2 & E3 & E4); simpl in *.
  - injection E1 as <-. injection E2 as <-. injection E3 as <-.
    injection E4 as <-. simpl. lra.
  - destruct i; discriminate.
Qed.

Lemma set_proportional_gain_stores_magnitude_witness :
  (0 = 0 /\ -2 <> 0)
  /\ (exists d, set_proportional_gain 0 arm_exact = Ok (false, arm_exact, [d]))
  /\ (exists log,
        set_proportional_gain (-2) arm_exact
        = Ok (true,
              mkControl (solver arm_exact) (n arm_exact) (Rabs (-2))
                        (kp arm_exact) (q arm_exact) (pLim arm_exact)
                        (vLim arm_exact) (aLim arm_exact) (dt arm_exact),
              log)
        /\ 0 < Rabs (-2)
        /\ (0 < -2 -> log = [])).
Proof.
  assert (H0 : 0 = 0) by reflexivity.
  assert (H2 : -2 <> 0) by lra.
  split; [split; assumption |]. split.
  - exact (proj1 (set_proportional_gain_stores_magnitude 0 arm_exact) H0).
  - exact (proj2 (set_proportional_gain_stores_magnitude (-2) arm_exact) H2).
Defined.

Lemma get_speed_limit_envelope_witness :
  (joint_entry arm_exact 0 (-1, 1) (1 / 2) 1 4
   /\ 0 < dt arm_exact /\ -1 <= 1 / 2 <= 1 /\ 0 <= 1 /\ 0 <= 4)
  /\ exists lower upper,
       get_speed_limit 0 arm_exact = Ok ((lower, upper), arm_exact, [])
       /\ - (1) <= lower <= 0 /\ 0 <= upper <= 1.
Proof.
  assert (Hdt : 0 < dt arm_exact) by (simpl; lra).
  assert (Hq : fst (-1, 1) <= 1 / 2 <= snd (-1, 1)) by (simpl; lra).
  assert (Hv : 0 <= 1) by lra.
  assert (Ha : 0 <= 4) by lra.
  split.
  - split; [exact entry_exact |]. split; [exact Hdt |].
    split; [exact Hq |]. split; assumption.
  - exact (get_speed_limit_envelope entry_exact Hdt Hq Hv Ha).
Defined.

Lemma get_speed_limit_closes_at_position_limit_witness :
  (joint_entry arm_at_limit 0 (-1, 1) (-1) 1 4 /\ 0 < dt arm_at_limit /\ 0 <= 1)
  /\ exists lower upper,
       get_speed_limit 0 arm_at_limit = Ok ((lower, upper), arm_at_limit, [])
       /\ (-1 = fst (-1, 1) -> lower = 0)
       /\ (-1 = snd (-1, 1) -> upper = 0).
Proof.
  assert (Hdt : 0 < dt arm_at_limit) by (simpl; lra).
  assert (Hv : 0 <= 1) by lra.
  split; [split; [exact entry_at_limit | split; [exact Hdt | exact Hv]] |].
  exact (get_speed_limit_closes_at_position_limit entry_at_limit Hdt Hv).
Defined.

Lemma move_to_position_within_limits_witness :
  (operational arm_exact /\ length [1] = n arm_exact)
  /\ exists ctrl,
       move_to_position [1] arm_exact = Ok (ctrl, arm_exact, [])
       /\ length ctrl = n arm_exact
       /\ forall i pi qi,
            nth_error [1] i = Some pi -> nth_error (q arm_exact) i = Some qi ->
            exists c, nth_error ctrl i = Some c
                      /\ clamped_to_limits arm_exact i (k arm_exact * (pi - qi)) c.
Proof.
  assert (L : length [1] = n arm_exact) by reflexivity.
  split; [split; [exact arm_exact_operational | exact L] |].
  exact (move_to_position_within_limits arm_exact_operational [1] L).
Defined.

Lemma track_joint_trajectory_within_limits_witness :
  (operational arm_exact /\ length [1] = n arm_exact /\ length [2] = n arm_exact)
  /\ exists ctrl,
       track_joint_trajectory [1] [2] arm_exact = Ok (ctrl, arm_exact, [])
       /\ length ctrl = n arm_exact
       /\ forall i pi vi,
            nth_error [1] i = Some pi -> nth_error [2] i = Some vi ->
            exists c, nth_error ctrl i = Some c
                      /\ clamped_to_limits arm_exact i
                           (vi + k arm_exact * (pi - get_joint_position arm_exact i)) c.
Proof.
  assert (L1 : length [1] = n arm_exact) by reflexivity.
  assert (L2 : length [2] = n arm_exact) by reflexivity.
  split; [split; [exact arm_exact_operational | split; assumption] |].
  exact (track_joint_trajectory_within_limits arm_exact_operational [1] [2] L1 L2).
Defined.

Lemma solve_joint_control_returns_a_limit_witness :
  (operational arm_exact /\ length [1] = n arm_exact
   /\ rows one = n arm_exact /\ cols one = n arm_exact)
  /\ exists qdot,
       solve_joint_control [1] one arm_exact = Ok (qdot, arm_exact, [])
       /\ length qdot = n arm_exact
       /\ forall i, (i < n arm_exact)%nat ->
            exists lower upper c,
              get_speed_limit i arm_exact = Ok ((lower, upper), arm_exact, [])
              /\ nth_error qdot i = Some c
              /\ (c = lower \/ c = upper).
Proof.
  assert (L : length [1] = n arm_exact) by reflexivity.
  assert (Rw : rows one = n arm_exact) by reflexivity.
  assert (Cl : cols one = n arm_exact) by reflexivity.
  split; [split; [exact arm_exact_operational | repeat split] |].
  exact (solve_joint_control_returns_a_limit arm_exact_operational [1] one L Rw Cl).
Defined.

End ExactControlRuns.

Module SolverRuns.
Import Binary32 Bench BenchInputs Binary32Facts TerminationRuns.

Lemma arm1_sized : sized arm1.
Proof. repeat split. Qed.

Lemma cartesian_commands_short_arm_witness :
  (sized arm1 /\ n arm1 < 6 /\ length forward = 6 /\ length [lit 0 1] = n arm1)
  /\ exists xMin xMax d,
       speed_limits arm1 = Ok ((xMin, xMax), arm1, [])
       /\ (d = least_squares_dimension_error \/ d = least_squares_weight_error)
       /\ move_at_speed_redundant 1 forward [lit 0 1] arm1
          = Ok (vscale s_half (zipw s_add xMin xMax), arm1, [d])
       /\ move_at_speed 1 forward arm1
          = Ok (vscale s_half (zipw s_add xMin xMax), arm1, [d])
       /\ move_to_pose 1 desired arm1
          = Ok (vscale s_half (zipw s_add xMin xMax), arm1, [d])
       /\ move_to_pose_redundant 1 desired [lit 0 1] arm1
          = Ok (vscale s_half (zipw s_add xMin xMax), arm1, [d])
       /\ track_cartesian_trajectory 1 desired forward arm1
          = Ok (vscale s_half (zipw s_add xMin xMax), arm1, [d])
       /\ track_cartesian_trajectory_redundant 1 desired forward [lit 0 1] arm1
          = Ok (vscale s_half (zipw s_add xMin xMax), arm1, [d]).
Proof.
  assert (Hn : n arm1 < 6) by (simpl; lia).
  assert (Lv : length forward = 6) by reflexivity.
  assert (Lr : length [lit 0 1] = n arm1) by reflexivity.
  split.
  - split; [exact arm1_sized |]. split; [exact Hn |]. split; assumption.
  - exact (cartesian_commands_short_arm 1 forward [lit 0 1] desired
             arm1_sized Hn Lv Lr).
Defined.

Lemma least_squares_box_rejects_mismatch_witness :
  (length (@nil f32) <> rows (mat1 (lit 1 1))
   \/ length [lit 0 1] <> cols (mat1 (lit 1 1))
   \/ length [lit (-1) 1] <> cols (mat1 (lit 1 1))
   \/ length [lit 1 1] <> cols (mat1 (lit 1 1))
   \/ rows (mat1 (lit 1 1)) <> rows (mat1 (lit 1 1))
   \/ cols (mat1 (lit 1 1)) <> rows (mat1 (lit 1 1)))
  /\ exists d,
       least_squares_box 1 [] (mat1 (lit 1 1)) (mat1 (lit 1 1))
                         [lit (-1) 1] [lit 1 1] [lit 0 1] cfg
       = Ok ([lit 0 1], cfg, [d])
       /\ d_stream d = StdErr.
Proof.
  assert (Hm : length (@nil f32) <> rows (mat1 (lit 1 1))
               \/ length [lit 0 1] <> cols (mat1 (lit 1 1))
               \/ length [lit (-1) 1] <> cols (mat1 (lit 1 1))
               \/ length [lit 1 1] <> cols (mat1 (lit 1 1))
               \/ rows (mat1 (lit 1 1)) <> rows (mat1 (lit 1 1))
               \/ cols (mat1 (lit 1 1)) <> rows (mat1 (lit 1 1))).
  { left. simpl. lia. }
  split; [exact Hm |].
  exact (least_squares_box_rejects_mismatch 1 [] (mat1 (lit 1 1)) (mat1 (lit 1 1))
           [lit (-1) 1] [lit 1 1] [lit 0 1] cfg Hm).
Defined.

Lemma least_squares_equality_box_rejects_mismatch_witness :
  (length [lit 0 1] <> cols (mat1 (lit 1 1))
   \/ length [lit 0 1] <> rows (mat1 (lit 1 1))
   \/ length [lit 0 1] <> cols (mat1 (lit 1 1))
   \/ rows (mat_of_rows 2 2 (@nil (list f32))) <> cols (mat1 (lit 1 1))
   \/ cols (mat_of_rows 2 2 (@nil (list f32))) <> cols (mat1 (lit 1 1)))
  /\ exists d,
       least_squares_equality_box 1 [lit 0 1] (mat_of_rows 2 2 []) [lit 0 1]
                                  (mat1 (lit 1 1)) [lit (-1) 1] [lit 1 1]
                                  [lit 0 1] cfg
       = Ok ([lit 0 1], cfg, [d])
       /\ d_stream d = StdErr.
Proof.
  assert (Hm : length [lit 0 1] <> cols (mat1 (lit 1 1))
               \/ length [lit 0 1] <> rows (mat1 (lit 1 1))
               \/ length [lit 0 1] <> cols (mat1 (lit 1 1))
               \/ rows (mat_of_rows 2 2 (@nil (list f32))) <> cols (mat1 (lit 1 1))
               \/ cols (mat_of_rows 2 2 (@nil (list f32))) <> cols (mat1 (lit 1 1))).
  { right. right. right. left. simpl. lia. }
  split; [exact Hm |].
  exact (least_squares_equality_box_rejects_mismatch 1 [lit 0 1]
           (mat_of_rows 2 2 []) [lit 0 1] (mat1 (lit 1 1)) [lit (-1) 1]
           [lit 1 1] [lit 0 1] cfg Hm).
Defined.

Lemma least_squares_equality_box_unchecked_bounds_witness :
  (length [lit 0 1] = cols (mat1 (lit 1 1))
   /\ length [lit 0 1] = rows (mat1 (lit 1 1))
   /\ length [lit 0 1] = cols (mat1 (lit 1 1))
   /\ rows (mat1 (lit 1 1)) = cols (mat1 (lit 1 1))
   /\ cols (mat1 (lit 1 1)) = cols (mat1 (lit 1 1))
   /\ (length [lit 1 1] <> cols (mat1 (lit 1 1))
       \/ length (@nil f32) <> cols (mat1 (lit 1 1))))
  /\ least_squares_equality_box 1 [lit 0 1] (mat1 (lit 1 1)) [lit 0 1]
                                (mat1 (lit 1 1)) [] [lit 1 1] [lit 0 1] cfg
     = Fault.
Proof.
  assert (Hb : length [lit 1 1] <> cols (mat1 (lit 1 1))
               \/ length (@nil f32) <> cols (mat1 (lit 1 1))).
  { right. simpl. lia. }
  split; [repeat split; exact Hb |].
  exact (least_squares_equality_box_unchecked_bounds 1 [lit 0 1] (mat1 (lit 1 1))
           [lit 0 1] (mat1 (lit 1 1)) [] [lit 1 1] [lit 0 1] cfg
           eq_refl eq_refl eq_refl eq_refl eq_refl Hb).
Defined.

Lemma least_squares_solves_normal_equations_witness :
  (length [lit 2 1] = rows (mat1 (lit 1 1))
   /\ length [lit 0 1] = cols (mat1 (lit 1 1))
   /\ rows (mat1 (lit 1 1)) = rows (mat1 (lit 1 1))
   /\ cols (mat1 (lit 1 1)) = rows (mat1 (lit 1 1)))
  /\ exists AtW AtWA AtWy,
       mmul (mtranspose (mat1 (lit 1 1))) (mat1 (lit 1 1)) = Ok AtW
       /\ mmul AtW (mat1 (lit 1 1)) = Ok AtWA
       /\ mvmul AtW [lit 2 1] = Ok AtWy
       /\ rows AtWA = length [lit 0 1] /\ cols AtWA = length [lit 0 1]
       /\ length AtWy = length [lit 0 1]
       /\ least_squares [lit 2 1] (mat1 (lit 1 1)) (mat1 (lit 1 1)) [lit 0 1] cfg
          = solve_linear_system AtWy AtWA [lit 0 1] cfg.
Proof.
  split; [repeat split |].
  exact (least_squares_solves_normal_equations [lit 2 1] (mat1 (lit 1 1))
           (mat1 (lit 1 1)) [lit 0 1] cfg eq_refl eq_refl eq_refl eq_refl).
Defined.

Lemma solve_constrained_keeps_size_witness :
  solve_constrained 200 (mat1 (lit 1 1)) [lit 0 1] (mat1 (lit 1 1))
                    [lit 1 1] [lit 2 1] cfg
  = Ok ([S754_finite false 8489165 (-23)], cfg, [])
  /\ length [S754_finite false 8489165 (-23)] = length [lit 2 1].
Proof.
  split; [exact solve_constrained_runs |].
  exact (@solve_constrained_keeps_size f32 _ _ 200 (mat1 (lit 1 1)) [lit 0 1]
           (mat1 (lit 1 1)) [lit 1 1] [lit 2 1] _ cfg cfg []
           solve_constrained_runs).
Defined.

Lemma least_squares_box_returns_witness :
  ((forall (A : Mat f32) (v : Vec f32),
       rows A = 1 -> cols A = 1 -> length v = 1 ->
       exists x, partialPivLu_solve A v = Ok x /\ length x = 1)
   /\ negative (s_1em2 : f32) = false
   /\ 150 < 200
   /\ (forall d s : f32,
          negative d = false -> negative (d + shrunk cfg 150 * s)%S = false))
  /\ exists x,
       least_squares_box 200 [lit 2 1] (mat1 (lit 1 1)) (mat1 (lit 1 1))
                         [lit (-1) 1] [lit 1 1] [lit 0 1] cfg
       = Ok (x, cfg, [])
       /\ length x = 1.
Proof.
  assert (Hfloor : negative (s_1em2 : f32) = false) by (vm_compute; reflexivity).
  assert (Hfuel : 150 < 200) by lia.
  assert (Hstep : forall d s : f32,
             negative d = false -> negative (d + shrunk cfg 150 * s)%S = false).
  { intros d s Hd. rewrite step_underflows. apply zero_step_keeps_slack. exact Hd. }
  split.
  - split; [exact lu_1x1_size |]. split; [exact Hfloor |].
    split; [exact Hfuel | exact Hstep].
  - exact (@least_squares_box_returns f32 _ _ cfg 1 lu_1x1_size Hfloor 150 200
             Hfuel Hstep [lit 2 1] (mat1 (lit 1 1)) (mat1 (lit 1 1))
             [lit (-1) 1] [lit 1 1] [lit 0 1]
             eq_refl eq_refl eq_refl eq_refl eq_refl eq_refl eq_refl).
Defined.
End SolverRuns.

Module ExactSolverRuns.
Import Exact ExactFacts ExactBench ExactInputs ExactRuns.
Import ExactLineSearch.
Local Open Scope R_scope.



End ExactSolverRuns.

Section ConstantLoops.
Context {F : Type} `{Scalar F}.

(** Writing the value that a coefficient already has changes nothing. *)
Lemma vset_same (v : Vec F) :
  forall (i : nat) (a : F), nth_error v i = Some a -> vset v i a = Ok v.
Proof.
  induction v as [| b v IH]; intros [| i] a E; simpl in *; try discriminate.
  - injection E as ->. reflexivity.
  - rewrite (IH i a E). reflexivity.
Qed.

Lemma vzero_nth (m i : nat) : i < m -> nth_error (vzero m) i = Some s_zero.
Proof.
  intros Hi. unfold vzero. rewrite nth_error_repeat by exact Hi. reflexivity.
Qed.

(** A loop whose body assigns zero to a coefficient of the zero vector
    returns the zero vector. *)
Lemma mfold_zero {S : Type} (body : Vec F -> nat -> M S (Vec F)) (s : S) (m : nat)
      (l : list nat) :
  (forall i, In i l ->
     exists a, body (vzero m) i s = lift (vset (vzero m) i a) s
               /\ a = s_zero /\ i < m) ->
  mfold body l (vzero m) s = Ok (vzero m, s, []).
Proof.
  intros Hb.
  destruct (@mfold_rule _ _ _ body s (fun _ v => v = vzero m) l [] (vzero m))
    as (v & Ev & ->); [reflexivity | | exact Ev].
  intros pre i post v1 El ->.
  destruct (Hb i) as (a & Eb & -> & Hi); [rewrite El; apply in_elt |].
  exists (vzero m). split; [| reflexivity].
  rewrite Eb, (vset_same _ _ (vzero_nth Hi)). reflexivity.
Qed.
End ConstantLoops.

Module ExactRest.
Import Exact ExactFacts ExactControlStatements ExactSpeedLimits ExactJoints.
Local Open Scope R_scope.

Section Rest.
Context {Ext : External R} {KB : KinematicBase R}.
Variable s : Control R.

(** X19.  Over the reals, on an operational controller, [move_to_position]
    asked for the position that the joints already have commands no
    motion: it returns the zero vector, without a diagnostic. *)
Theorem move_to_position_rests_at_target :
  operational s ->
  move_to_position (q s) s = Ok (vzero (n s), s, []).
Proof.
  intros Hop. unfold move_to_position.
  rewrite mbind_this, (neqb_false (proj1 (proj1 Hop))).
  apply mfold_zero. intros i Hi. apply in_seq in Hi.
  assert (Hi' : (i < n s)%nat) by lia.
  destruct (operational_limits Hop Hi') as (qi & lower & upper & Eq & Eg & Hb).
  assert (E1 : vget (q s) i = Ok qi) by (unfold vget; now rewrite Eq).
  exists (saturate (k s * (qi - qi)) lower upper).
  split; [| split; [| exact Hi']].
  - rewrite (mbind_lift _ _ E1), (mbind_lift _ _ E1), (mbind_quiet _ _ Eg).
    reflexivity.
  - rewrite R_zero.
    replace (k s * (qi - qi)) with 0 by ring.
    apply (saturate_within 0 (lower := lower) (upper := upper)); lra.
Qed.

(** X20.  Over the reals, at a singular configuration, where
    [det(J*J')] is zero, the manipulability [mu] is zero and
    [singularity_avoidance] returns the zero vector for every positive
    scalar: the gradient gives no direction away from the singularity. *)
Theorem singularity_avoidance_vanishes_at_singularity (scalar : R) :
  0 < scalar -> (1 <= n s)%nat ->
  (forall i, cols (get_partial_derivative s (get_jacobian s) i)
             = rows (get_pseudoinverse s (get_jacobian s))) ->
  (forall JJt, mmul (get_jacobian s) (mtranspose (get_jacobian s)) = Ok JJt ->
               determinant JJt = 0) ->
  singularity_avoidance scalar s = Ok (vzero (n s), s, []).
Proof.
  intros Hpos Hn Hshape Hdet. unfold singularity_avoidance.
  rewrite mbind_this.
  assert (Ele : (scalar <=? s_zero)%S = false).
  { rewrite R_zero. apply Rleb_false. exact Hpos. }
  rewrite Ele. cbv zeta.
  pose proof (mmul_Ok (get_jacobian s) (mtranspose (get_jacobian s)) eq_refl) as EJ.
  rewrite (mbind_lift _ _ EJ). rewrite (Hdet _ EJ).
  assert (E0 : vset (vzero (n s)) 0 (@s_zero R _) = Ok (vzero (n s))).
  { apply vset_same. apply vzero_nth. lia. }
  rewrite (mbind_lift _ _ E0).
  apply mfold_zero. intros i Hi. apply in_seq in Hi.
  pose proof (mmul_Ok _ _ (Hshape i)) as EP.
  eexists. split; [| split; [| lia]].
  - rewrite (mbind_lift _ _ EP). reflexivity.
  - rewrite R_zero. change (@s_sqrt R _) with sqrt.
    change (@s_mul R _) with Rmult. rewrite sqrt_0. ring.
Qed.
End Rest.
End ExactRest.

Module ExactRestRuns.
Import Exact ExactFacts ExactControlStatements ExactBench.
Import ExactInputs ExactControlRuns ExactRest ExactRuns.
Local Open Scope R_scope.

Lemma jacobian_two_singular (JJt : Mat R) :
  mmul jacobian_two (mtranspose jacobian_two) = Ok JJt ->
  determinant JJt = 0.
Proof.
  intros E. unfold mmul in E. simpl in E. injection E as <-.
  run. lra.
Qed.

(** On the two-joint arm the loop runs for the second joint, where the
    trace of [dJ*invJ] is 2: the component vanishes because [mu] does. *)
Lemma turning_arm_trace :
  match mmul (@get_partial_derivative R _ turning_arm arm_two jacobian_two 1)
             (@get_pseudoinverse R _ turning_arm arm_two jacobian_two) with
  | Ok P => mtrace P
  | _ => 0
  end = 2.
Proof. run. lra. Qed.

Lemma move_to_position_rests_at_target_witness :
  operational arm_exact
  /\ move_to_position (q arm_exact) arm_exact
     = Ok (vzero (n arm_exact), arm_exact, []).
Proof.
  split; [exact arm_exact_operational |].
  exact (move_to_position_rests_at_target arm_exact_operational).
Defined.

Lemma singularity_avoidance_vanishes_at_singularity_witness :
  (0 < 1 /\ (1 <= n arm_two)%nat
   /\ (forall i,
          cols (@get_partial_derivative R _ turning_arm arm_two
                  (@get_jacobian R _ turning_arm arm_two) i)
          = rows (@get_pseudoinverse R _ turning_arm arm_two
                    (@get_jacobian R _ turning_arm arm_two)))
   /\ (forall JJt,
          mmul (@get_jacobian R _ turning_arm arm_two)
               (mtranspose (@get_jacobian R _ turning_arm arm_two))
          = Ok JJt ->
          determinant JJt = 0))
  /\ @singularity_avoidance R _ systems_exact turning_arm 1 arm_two
     = Ok (vzero (n arm_two), arm_two, []).
Proof.
  assert (Hpos : 0 < 1) by lra.
  assert (Hn : (1 <= n arm_two)%nat) by (simpl; lia).
  assert (Hshape : forall i,
             cols (@get_partial_derivative R _ turning_arm arm_two
                     (@get_jacobian R _ turning_arm arm_two) i)
             = rows (@get_pseudoinverse R _ turning_arm arm_two
                       (@get_jacobian R _ turning_arm arm_two))).
  { intros i. reflexivity. }
  split.
  - split; [exact Hpos |]. split; [exact Hn |].
    split; [exact Hshape | exact jacobian_two_singular].
  - exact (@singularity_avoidance_vanishes_at_singularity systems_exact
             turning_arm arm_two 1 Hpos Hn Hshape jacobian_two_singular).
Defined.
End ExactRestRuns.
